(** * HamedStack.QueryBuilder: the [Query] node model and the fluent
    [QueryBuilder] of [src/index.ts], embedded over an explicit object store.

    The TypeScript class keeps one private reference [currentQuery] to a
    mutable [Query] object; [add] and [group] allocate further objects and
    arrays and push references into the [Queries] array of the current node,
    and [build] hands out the live reference.  The embedding therefore keeps a
    store of objects addressed by locations, and every method is a
    computation over that store which either returns or throws. *)

Set Warnings "-register-all".
From Stdlib Require Import ZArith.
From stdpp Require Import base option list strings.

(** ** The two enumerations

    TypeScript numeric enums: the members are numbered from zero in the order
    of declaration. *)

Module Operator.
Inductive t : Set := And | Or | Xor.

Definition value (o : t) : Z :=
  match o with And => 0%Z | Or => 1%Z | Xor => 2%Z end.
End Operator.

Module Filter.
Inductive t : Set :=
| Equal | NotEqual | GreaterOrEqual | LessOrEqual | GreaterThan | LessThan
| StartsWith | EndsWith | DoesNotStartWith | DoesNotEndWith
| Contains | DoesNotContain | IsNull | NotNull | Matches | DoesNotMatch
| In | NotIn | All | Any.

Definition value (f : t) : Z :=
  (match f with
   | Equal => 0 | NotEqual => 1 | GreaterOrEqual => 2 | LessOrEqual => 3
   | GreaterThan => 4 | LessThan => 5 | StartsWith => 6 | EndsWith => 7
   | DoesNotStartWith => 8 | DoesNotEndWith => 9 | Contains => 10
   | DoesNotContain => 11 | IsNull => 12 | NotNull => 13 | Matches => 14
   | DoesNotMatch => 15 | In => 16 | NotIn => 17 | All => 18 | Any => 19
   end)%Z.
End Filter.

(** The truthiness test [if (condition)] applied to a number. *)
Definition ToBoolean (n : Z) : bool := negb (Z.eqb n 0).

(** ** Values of type [any] and thrown values

    The [Value] of a condition is not interpreted by the builder; numbers are
    kept as integers here. *)

Inductive JsValue : Type :=
| JsUndefined
| JsNull
| JsBoolean (b : bool)
| JsNumber (n : Z)
| JsString (s : string)
| JsArray (items : list JsValue).

(** What a computation may throw: a value thrown by caller code, or the
    TypeError of the runtime when a reference is not of the expected kind. *)
Inductive error : Type :=
| Thrown (v : JsValue)
| TypeError.

(** ** Objects and the store *)

Abbreviation loc := nat.

(** The interface [Query].  An optional field is [None] when the key is
    absent; [Queries] holds a reference to an array object. *)
Record Query : Type := mkQuery {
  Operator : option Operator.t;
  Not : bool;
  Property : option string;
  Filter : option Filter.t;
  Value : option JsValue;
  Queries : option loc
}.

Inductive obj : Type :=
| ObjQuery (q : Query)
| ObjArray (elems : list loc).

(** Locations are allocated in order: the store is the list of all objects
    allocated so far and a location is an index into it. *)
Abbreviation heap := (list obj).

Inductive outcome (A : Type) : Type :=
| Returns (a : A) (h : heap)
| Throws (e : error) (h : heap).
Arguments Returns {A} a h.
Arguments Throws {A} e h.

Definition JS (A : Type) : Type := heap → outcome A.

#[global] Instance JS_ret : MRet JS := λ A a h, Returns a h.
#[global] Instance JS_bind : MBind JS := λ A B k m h,
  match m h with
  | Returns a h' => k a h'
  | Throws e h' => Throws e h'
  end.

Definition throw {A : Type} (e : error) : JS A := λ h, Throws e h.

Definition final {A : Type} (o : outcome A) : heap :=
  match o with Returns _ h => h | Throws _ h => h end.

(** [{ ... }] and [[]]: a new object gets the next location. *)
Definition alloc (o : obj) : JS loc := λ h, Returns (length h) (h ++ [o]).

Definition getQuery (l : loc) : JS Query := λ h,
  match h !! l with
  | Some (ObjQuery q) => Returns q h
  | _ => Throws TypeError h
  end.

Definition setQuery (l : loc) (q : Query) : JS unit := λ h,
  match h !! l with
  | Some (ObjQuery _) => Returns tt (<[l := ObjQuery q]> h)
  | _ => Throws TypeError h
  end.

(** [a.push(x)]: appends in place and returns the new length. *)
Definition push (a : loc) (x : loc) : JS nat := λ h,
  match h !! a with
  | Some (ObjArray elems) =>
      Returns (S (length elems)) (<[a := ObjArray (elems ++ [x])]> h)
  | _ => Throws TypeError h
  end.

Definition with_Operator (o : Operator.t) (q : Query) : Query :=
  mkQuery (Some o) (Not q) (Property q) (Filter q) (Value q) (Queries q).

Definition with_Queries (a : loc) (q : Query) : Query :=
  mkQuery (Operator q) (Not q) (Property q) (Filter q) (Value q) (Some a).

(** [l.Operator = o] *)
Definition assign_Operator (l : loc) (o : Operator.t) : JS unit :=
  q ← getQuery l; setQuery l (with_Operator o q).

(** [if (!l.Queries) { l.Queries = []; }] *)
Definition ensure_Queries (l : loc) : JS unit :=
  q ← getQuery l;
  match Queries q with
  | Some _ => mret tt
  | None => a ← alloc (ObjArray []); setQuery l (with_Queries a q)
  end.

(** [l.Queries.push(x)] *)
Definition push_Queries (l : loc) (x : loc) : JS nat :=
  q ← getQuery l;
  match Queries q with
  | Some a => push a x
  | None => throw TypeError
  end.

(** ** The class [QueryBuilder] *)

Module QueryBuilder.

(** The only field is private and assigned once, in the constructor, so a
    builder is the reference it holds. *)
Record t : Type := mk { currentQuery : loc }.

(** [constructor(condition: Operator = Operator.And)]; [None] is the call
    without an argument. *)
Definition constructor (condition : option Operator.t) : JS t :=
  let condition := default Operator.And condition in
  cq ← alloc (ObjQuery (mkQuery None false None None None None));
  (if ToBoolean (Operator.value condition)
   then assign_Operator cq condition
   else mret tt);;
  mret (mk cq).

Definition and (this : t) : JS t :=
  assign_Operator (currentQuery this) Operator.And;; mret this.

Definition or (this : t) : JS t :=
  assign_Operator (currentQuery this) Operator.Or;; mret this.

Definition xor (this : t) : JS t :=
  assign_Operator (currentQuery this) Operator.Xor;; mret this.

(** [add(property, filter, value?)]; an omitted [value] is [JsUndefined],
    and the literal still has the key [Value]. *)
Definition add (property : string) (filter : Filter.t) (value : JsValue)
    (this : t) : JS t :=
  query ← alloc (ObjQuery
             (mkQuery None false (Some property) (Some filter) (Some value) None));
  ensure_Queries (currentQuery this);;
  push_Queries (currentQuery this) query;;
  mret this.

Definition build (this : t) : JS loc := mret (currentQuery this).

Definition group (groupAction : t → JS unit) (condition : option Operator.t)
    (this : t) : JS t :=
  group ← constructor condition;
  groupAction group;;
  ensure_Queries (currentQuery this);;
  built ← build group;
  push_Queries (currentQuery this) built;;
  mret this.

End QueryBuilder.

(** ** Reading a tree out of the store

    The structural content reachable from a reference, as a consumer that
    walks or serialises the result sees it.  Field names follow the
    description of the node: operator, negate, property, predicate, value,
    children. *)
Inductive QueryTree : Type :=
| QNode (operator : option Operator.t) (negate : bool)
        (property : option string) (predicate : option Filter.t)
        (value : option JsValue) (children : option (list QueryTree)).

Fixpoint snapshot (fuel : nat) (h : heap) (l : loc) : option QueryTree :=
  match fuel with
  | O => None
  | S fuel =>
      match h !! l with
      | Some (ObjQuery q) =>
          kids ← match Queries q with
                 | None => Some None
                 | Some a =>
                     match h !! a with
                     | Some (ObjArray elems) =>
                         Some <$> mapM (snapshot fuel h) elems
                     | _ => None
                     end
                 end;
          Some (QNode (Operator q) (Not q) (Property q) (Filter q) (Value q) kids)
      | _ => None
      end
  end.

(** Run a computation that ends in a reference and read the tree behind it. *)
Definition observe (fuel : nat) (m : JS loc) (h : heap) : option QueryTree :=
  match m h with
  | Returns l h' => snapshot fuel h' l
  | Throws _ _ => None
  end.

(** ** What the methods leave in the store *)

(** The [Operator] key of a root just constructed: set only when the
    argument (or the default) passes the truthiness test. *)
Definition initial_Operator (condition : option Operator.t) : option Operator.t :=
  let condition := default Operator.And condition in
  if ToBoolean (Operator.value condition) then Some condition else None.

Definition initial (condition : option Operator.t) : Query :=
  mkQuery (initial_Operator condition) false None None None None.

(** The object literal of [add]. *)
Definition leaf (property : string) (filter : Filter.t) (value : JsValue) : Query :=
  mkQuery None false (Some property) (Some filter) (Some value) None.

Definition leafTree (property : string) (filter : Filter.t) (value : JsValue)
    : QueryTree :=
  QNode None false (Some property) (Some filter) (Some value) None.

(** A builder is ready in a store when its node is there and its [Queries]
    key, if present, refers to an array. *)
Definition ready (h : heap) (this : QueryBuilder.t) : bool :=
  match h !! QueryBuilder.currentQuery this with
  | Some (ObjQuery q) =>
      match Queries q with
      | None => true
      | Some a => match h !! a with Some (ObjArray _) => true | _ => false end
      end
  | _ => false
  end.

(** The references held by the [Queries] array of a node ([[]] when the key
    is absent). *)
Definition children_of (h : heap) (l : loc) : list loc :=
  match h !! l with
  | Some (ObjQuery q) =>
      match Queries q with
      | Some a => match h !! a with Some (ObjArray elems) => elems | _ => [] end
      | None => []
      end
  | _ => []
  end.

Definition call_leaf (c : string * Filter.t * JsValue) : Query :=
  let '(p, f, v) := c in leaf p f v.

Definition call_tree (c : string * Filter.t * JsValue) : QueryTree :=
  let '(p, f, v) := c in leafTree p f v.

(** No object in the store refers to a location that is not allocated. *)
Definition closed (h : heap) : bool :=
  forallb (λ o, match o with
                | ObjQuery q =>
                    match Queries q with
                    | Some a => a <? length h
                    | None => true
                    end
                | ObjArray elems => forallb (λ x, x <? length h) elems
                end) h.

(** ** Caller code *)

(** [b.add(p1, f1, v1).add(p2, f2, v2)...]: a chain of [add] calls. *)
Fixpoint adds (calls : list (string * Filter.t * JsValue))
    (this : QueryBuilder.t) : JS QueryBuilder.t :=
  match calls with
  | [] => mret this
  | (p, f, v) :: rest => this' ← QueryBuilder.add p f v this; adds rest this'
  end.

(** [g => { g.add(p1, f1, v1); g.add(p2, f2, v2); }] *)
Definition two_adds (p1 : string) (f1 : Filter.t) (v1 : JsValue)
    (p2 : string) (f2 : Filter.t) (v2 : JsValue)
    (g : QueryBuilder.t) : JS unit :=
  QueryBuilder.add p1 f1 v1 g;; QueryBuilder.add p2 f2 v2 g;; mret tt.

(** A callback written as a sequence of calls on the builder it is given:
    [g => { g.and(); g.add(p, f, v); g.group(k => { ... }, op); throw v; }]. *)
Inductive call : Type :=
| CallAnd
| CallOr
| CallXor
| CallAdd (p : string) (f : Filter.t) (v : JsValue)
| CallGroup (body : list call) (condition : option Operator.t)
| CallThrow (v : JsValue).

Fixpoint run_call (c : call) (this : QueryBuilder.t) : JS unit :=
  match c with
  | CallAnd => QueryBuilder.and this;; mret tt
  | CallOr => QueryBuilder.or this;; mret tt
  | CallXor => QueryBuilder.xor this;; mret tt
  | CallAdd p f v => QueryBuilder.add p f v this;; mret tt
  | CallGroup body condition =>
      QueryBuilder.group
        (λ g, foldr (λ c rest, run_call c g;; rest) (mret tt) body)
        condition this;;
      mret tt
  | CallThrow v => throw (Thrown v)
  end.

Definition run_calls (body : list call) (g : QueryBuilder.t) : JS unit :=
  foldr (λ c rest, run_call c g;; rest) (mret tt) body.

(** [owned n h this]: the builder is ready, and its node and its array were
    allocated at or after location [n]. *)
Definition owned (n : nat) (h : heap) (this : QueryBuilder.t) : Prop :=
  n ≤ QueryBuilder.currentQuery this
  ∧ ready h this = true
  ∧ ∀ q a, h !! QueryBuilder.currentQuery this = Some (ObjQuery q) →
           Queries q = Some a → n ≤ a.

(** [framed n g m h]: run from [h], the computation [m] leaves the store
    below [n] alone, and when it returns the builder [g] is still owned. *)
Definition framed (n : nat) (g : QueryBuilder.t) (m : JS unit) (h : heap) : Prop :=
  take n (final (m h)) = take n h
  ∧ ∀ h', m h = Returns tt h' → owned n h' g.

(** [b.and()], [b.or()] or [b.xor()], named by the operator it stores. *)
Definition set_Operator (op : Operator.t) (this : QueryBuilder.t)
    : JS QueryBuilder.t :=
  match op with
  | Operator.And => QueryBuilder.and this
  | Operator.Or => QueryBuilder.or this
  | Operator.Xor => QueryBuilder.xor this
  end.

(** ** Chains read as functions on trees

    What a chain of calls does to the tree of the builder it runs on, and
    the value it throws if a [throw] stops it.  A group runs its body on a
    new node and appends that node when the body has run to its end; when
    the body throws, the node is dropped and the throw goes on. *)
Definition tree_with_operator (op : Operator.t) (t : QueryTree) : QueryTree :=
  match t with QNode _ n p f v k => QNode (Some op) n p f v k end.

Definition tree_with_child (c : QueryTree) (t : QueryTree) : QueryTree :=
  match t with
  | QNode o n p f v k => QNode o n p f v (Some (default [] k ++ [c]))
  end.

Definition fresh_tree (condition : option Operator.t) : QueryTree :=
  QNode (initial_Operator condition) false None None None None.

Definition thread (step : call → QueryTree → QueryTree * option JsValue)
    : list call → QueryTree → QueryTree * option JsValue :=
  fix go cs t :=
    match cs with
    | [] => (t, None)
    | c :: cs' =>
        match step c t with
        | (t', None) => go cs' t'
        | stopped => stopped
        end
    end.

Fixpoint tree_after_call (c : call) (t : QueryTree)
    : QueryTree * option JsValue :=
  match c with
  | CallAnd => (tree_with_operator Operator.And t, None)
  | CallOr => (tree_with_operator Operator.Or t, None)
  | CallXor => (tree_with_operator Operator.Xor t, None)
  | CallAdd p f v => (tree_with_child (leafTree p f v) t, None)
  | CallGroup body condition =>
      match thread (λ c' s, tree_after_call c' s) body (fresh_tree condition) with
      | (child, None) => (tree_with_child child t, None)
      | (_, Some v) => (t, Some v)
      end
  | CallThrow v => (t, Some v)
  end.

Definition tree_after_calls : list call → QueryTree → QueryTree * option JsValue :=
  thread tree_after_call.

(** The outcome a chain must have for a given pure reading. *)
Definition ends_as (stop : option JsValue) (o : outcome unit) (h' : heap) : Prop :=
  match stop with
  | None => o = Returns tt h'
  | Some v => o = Throws (Thrown v) h'
  end.

(** [block lo hi h]: the objects at the locations from [lo] up to [hi] refer
    only to locations in that range. *)
Definition refs_within (lo hi : nat) (o : obj) : Prop :=
  match o with
  | ObjQuery q => ∀ a, Queries q = Some a → lo ≤ a ∧ a < hi
  | ObjArray elems => Forall (λ x, lo ≤ x ∧ x < hi) elems
  end.

Definition block (lo hi : nat) (h : heap) : Prop :=
  ∀ l o, lo ≤ l → l < hi → h !! l = Some o → refs_within lo hi o.

(** [child_at h cq a x c]: the location [x] reads as the tree [c] and sits
    in a block of its own, after the node [cq] and clear of the array [a]. *)
Definition child_at (h : heap) (cq a x : loc) (c : QueryTree) : Prop :=
  ∃ hi, cq < x ∧ x < hi ∧ hi ≤ length h
        ∧ block x hi h
        ∧ ¬ (x ≤ a ∧ a < hi)
        ∧ ∃ fuel, snapshot fuel h x = Some c.

(** [represents h g t]: the node of [g] reads as the tree [t]; everything
    from that node to the end of the store refers only to that part, and each
    child sits in a block of its own that holds neither the node of [g] nor
    its array. *)
Definition represents (h : heap) (g : QueryBuilder.t) (t : QueryTree) : Prop :=
  let cq := QueryBuilder.currentQuery g in
  ∃ q kids,
    h !! cq = Some (ObjQuery q)
    ∧ t = QNode (Operator q) (Not q) (Property q) (Filter q) (Value q) kids
    ∧ block cq (length h) h
    ∧ match Queries q with
      | None => kids = None
      | Some a =>
          cq < a
          ∧ ∃ elems ts, h !! a = Some (ObjArray elems)
                        ∧ kids = Some ts
                        ∧ Forall2 (child_at h cq a) elems ts
      end.

(** [refines m reading h g]: run from [h] on the builder [g], the
    computation [m] ends as the pure reading says, leaves [g] representing
    the tree of the reading, and leaves alone all that lies before the node
    of [g]. *)
Definition refines (m : JS unit) (reading : QueryTree * option JsValue)
    (h : heap) (g : QueryBuilder.t) : Prop :=
  ∃ h', ends_as (snd reading) (m h) h'
        ∧ represents h' g (fst reading)
        ∧ (∀ l, l < QueryBuilder.currentQuery g → h' !! l = h !! l)
        ∧ length h ≤ length h'.

(** [d] groups inside one another around one condition:
    [g => g.group(g1 => g1.group(... gd.add(p, f, v) ...), op)]. *)
Fixpoint nested_group (d : nat) (condition : option Operator.t)
    (p : string) (f : Filter.t) (v : JsValue) : call :=
  match d with
  | O => CallAdd p f v
  | S d => CallGroup [nested_group d condition p f v] condition
  end.

Fixpoint nested_tree (d : nat) (condition : option Operator.t)
    (p : string) (f : Filter.t) (v : JsValue) : QueryTree :=
  match d with
  | O => leafTree p f v
  | S d => QNode (initial_Operator condition) false None None None
             (Some [nested_tree d condition p f v])
  end.

(** [g => { g.add("a", Filter.Equal, 1);
            g.group(k => { k.xor(); k.add("b", Filter.In, null); }); }] *)
Definition sample_chain : list call :=
  [CallAdd "a" Filter.Equal (JsNumber 1);
   CallGroup [CallXor; CallAdd "b" Filter.In JsNull] None].

(** ** The two shapes of a node

    A condition leaf has [Property], [Filter] and [Value] and neither
    [Operator] nor [Queries]; a combinator has none of the three leaf keys.
    Both have [Not] false. *)
Definition present {A : Type} (x : option A) : bool :=
  match x with Some _ => true | None => false end.

Definition leaf_keys_absent (p : option string) (f : option Filter.t)
    (v : option JsValue) : bool :=
  negb (present p) && negb (present f) && negb (present v).

Fixpoint well_shaped (t : QueryTree) : bool :=
  match t with
  | QNode o n p f v k =>
      negb n
      && match k with
         | None =>
             (present p && present f && present v && negb (present o))
             || leaf_keys_absent p f v
         | Some ts => leaf_keys_absent p f v && forallb well_shaped ts
         end
  end.

Definition combinator_shaped (t : QueryTree) : bool :=
  match t with
  | QNode o n p f v k =>
      negb n && leaf_keys_absent p f v
      && match k with
         | None => true
         | Some ts => forallb well_shaped ts
         end
  end.

(** [try { m } catch (e) { handler(e) }] *)
Definition try_catch {A : Type} (m : JS A) (handler : error → JS A) : JS A :=
  λ h, match m h with
       | Returns a h' => Returns a h'
       | Throws e h' => handler e h'
       end.

(** A store holding the root made by [new QueryBuilder(Operator.Or)], and
    the builder that owns it. *)
Definition sample_store : heap := [ObjQuery (initial (Some Operator.Or))].

Definition sample_builder : QueryBuilder.t := QueryBuilder.mk 0.

(** [g => { g.add("a", Filter.Equal, 1); throw "boom"; }] *)
Definition failing_callback : QueryBuilder.t → JS unit :=
  run_calls [CallAdd "a" Filter.Equal (JsNumber 1); CallThrow (JsString "boom")].

(** [g => { outer.add("x", Filter.Equal, 1); throw "boom"; }]: a callback
    that holds on to the builder [group] is called on. *)
Definition reaching_callback (outer g : QueryBuilder.t) : JS unit :=
  QueryBuilder.add "x" Filter.Equal (JsNumber 1) outer;;
  throw (Thrown (JsString "boom")).

(** A builder session with a nested group. *)
Definition sample_session : JS loc :=
  qb ← QueryBuilder.constructor (Some Operator.Or);
  qb ← QueryBuilder.add "age" Filter.GreaterThan (JsNumber 18) qb;
  qb ← QueryBuilder.group
         (λ g, g ← QueryBuilder.add "a" Filter.Equal JsNull g;
               QueryBuilder.group (λ k, QueryBuilder.xor k;; mret tt)
                 (Some Operator.Xor) g;;
               mret tt)
         None qb;
  QueryBuilder.build qb.

(** Caller code that touches the store only through the builder: it creates
    builders, calls their methods, passes callbacks built the same way,
    throws and catches. *)
Inductive client : ∀ A : Type, JS A → Prop :=
| client_ret A (a : A) : client A (mret a)
| client_bind A B (m : JS A) (k : A → JS B) :
    client A m → (∀ a, client B (k a)) → client B (m ≫= k)
| client_throw A (v : JsValue) : client A (throw (Thrown v))
| client_catch A (m : JS A) (handler : error → JS A) :
    client A m → (∀ e, client A (handler e)) → client A (try_catch m handler)
| client_new condition : client _ (QueryBuilder.constructor condition)
| client_and this : client _ (QueryBuilder.and this)
| client_or this : client _ (QueryBuilder.or this)
| client_xor this : client _ (QueryBuilder.xor this)
| client_add p f v this : client _ (QueryBuilder.add p f v this)
| client_build this : client _ (QueryBuilder.build this)
| client_group groupAction condition this :
    (∀ g, client _ (groupAction g)) →
    client _ (QueryBuilder.group groupAction condition this).

(** ** Invariants of the store *)

(** [keeps R m]: whatever the outcome of [m], the store it leaves is related
    by [R] to the store it started from. *)
Definition keeps (R : heap → heap → Prop) {A : Type} (m : JS A) : Prop :=
  ∀ h, R h (final (m h)).

(** Every node in the store has [Not] equal to [false]. *)
Definition all_Not_false (h : heap) : bool :=
  forallb (λ o, match o with ObjQuery q => negb (Not q) | ObjArray _ => true end) h.

(** Every [Queries] key in the store refers to an array. *)
Definition well_formed (h : heap) : bool :=
  forallb (λ o, match o with
                | ObjQuery q =>
                    match Queries q with
                    | Some a =>
                        match h !! a with Some (ObjArray _) => true | _ => false end
                    | None => true
                    end
                | ObjArray _ => true
                end) h.

Fixpoint all_negate_false (t : QueryTree) : bool :=
  match t with
  | QNode _ negate _ _ _ kids =>
      negb negate
      && match kids with
         | None => true
         | Some ts => forallb all_negate_false ts
         end
  end.

(** [grows h h']: objects are never removed or change kind, an array only
    gains elements at its end, and a node keeps its [Queries] array once it
    has one. *)
Definition grows (h h' : heap) : Prop :=
  length h ≤ length h'
  ∧ (∀ a elems, h !! a = Some (ObjArray elems) →
       ∃ more, h' !! a = Some (ObjArray (elems ++ more)))
  ∧ (∀ l q, h !! l = Some (ObjQuery q) →
       ∃ q', h' !! l = Some (ObjQuery q')
             ∧ ∀ a, Queries q = Some a → Queries q' = Some a).

(** * Proofs *)

(** ** Stepping through a computation *)

Section store_facts.
Implicit Types (h : heap) (l a x : loc) (o : obj) (q : Query).

Lemma bind_run {A B} (m : JS A) (k : A → JS B) h :
  (m ≫= k) h
  = match m h with Returns r h' => k r h' | Throws e h' => Throws e h' end.
Proof. reflexivity. Qed.

Lemma ret_run {A} (r : A) h : mret (M := JS) r h = Returns r h.
Proof. reflexivity. Qed.

Lemma lookup_alloc h o : (h ++ [o]) !! length h = Some o.
Proof. rewrite lookup_app_r by lia. by rewrite Nat.sub_diag. Qed.

Lemma insert_alloc h o o' : <[length h := o']> (h ++ [o]) = h ++ [o'].
Proof.
  rewrite <- (Nat.add_0_r (length h)). by rewrite insert_app_r.
Qed.

Lemma getQuery_run h l q :
  h !! l = Some (ObjQuery q) → getQuery l h = Returns q h.
Proof. intros Hl. unfold getQuery. by rewrite Hl. Qed.

Lemma setQuery_run h l q q' :
  h !! l = Some (ObjQuery q) →
  setQuery l q' h = Returns tt (<[l := ObjQuery q']> h).
Proof. intros Hl. unfold setQuery. by rewrite Hl. Qed.

Lemma push_run h a x elems :
  h !! a = Some (ObjArray elems) →
  push a x h = Returns (S (length elems)) (<[a := ObjArray (elems ++ [x])]> h).
Proof. intros Ha. unfold push. by rewrite Ha. Qed.

Lemma assign_Operator_run h l q op :
  h !! l = Some (ObjQuery q) →
  assign_Operator l op h
  = Returns tt (<[l := ObjQuery (with_Operator op q)]> h).
Proof.
  intros Hl. unfold assign_Operator.
  rewrite bind_run, (getQuery_run _ _ _ Hl).
  by apply setQuery_run with q.
Qed.

(** The two statements shared by [add] and [group], when the node has no
    [Queries] yet: the array is created and receives its first element. *)
Lemma append_first {A} (k : JS A) h l x q :
  h !! l = Some (ObjQuery q) → Queries q = None →
  (ensure_Queries l;; push_Queries l x;; k) h
  = k (<[l := ObjQuery (with_Queries (length h) q)]> h ++ [ObjArray [x]]).
Proof.
  intros Hl Hq.
  pose proof (lookup_lt_Some _ _ _ Hl) as Hlt.
  set (q' := with_Queries (length h) q).
  assert (H1 : (h ++ [ObjArray []]) !! l = Some (ObjQuery q))
    by (by rewrite lookup_app_l).
  assert (H2 : (<[l := ObjQuery q']> h ++ [ObjArray []]) !! l
               = Some (ObjQuery q')).
  { rewrite lookup_app_l by (by rewrite length_insert).
    by apply list_lookup_insert_eq. }
  assert (H3 : (<[l := ObjQuery q']> h ++ [ObjArray []]) !! length h
               = Some (ObjArray [])).
  { rewrite <- (length_insert h l (ObjQuery q')). apply lookup_alloc. }
  rewrite bind_run. unfold ensure_Queries.
  rewrite bind_run, (getQuery_run _ _ _ Hl), Hq.
  rewrite bind_run. unfold alloc. fold q'.
  rewrite (setQuery_run _ _ _ q' H1), insert_app_l by done.
  rewrite bind_run. unfold push_Queries.
  rewrite bind_run, (getQuery_run _ _ _ H2).
  cbn [Queries with_Queries q'].
  rewrite (push_run _ _ x _ H3).
  f_equal.
  rewrite <- (length_insert h l (ObjQuery q')) at 1.
  apply insert_alloc.
Qed.

(** ... and when it has one already. *)
Lemma append_next {A} (k : JS A) h l x q a elems :
  h !! l = Some (ObjQuery q) → Queries q = Some a →
  h !! a = Some (ObjArray elems) →
  (ensure_Queries l;; push_Queries l x;; k) h
  = k (<[a := ObjArray (elems ++ [x])]> h).
Proof.
  intros Hl Hq Ha.
  rewrite bind_run. unfold ensure_Queries.
  rewrite bind_run, (getQuery_run _ _ _ Hl), Hq, ret_run.
  rewrite bind_run. unfold push_Queries.
  rewrite bind_run, (getQuery_run _ _ _ Hl), Hq.
  by rewrite (push_run _ _ _ _ Ha).
Qed.
End store_facts.

(** ** The methods, one by one *)

Section methods.
Import QueryBuilder.
Implicit Types (h : heap) (this : QueryBuilder.t) (q : Query).

Lemma constructor_run condition h :
  constructor condition h
  = Returns (mk (length h)) (h ++ [ObjQuery (initial condition)]).
Proof.
  unfold constructor, initial, initial_Operator.
  rewrite bind_run. unfold alloc.
  destruct (ToBoolean _); rewrite bind_run; [|done].
  rewrite (assign_Operator_run _ _ _ _ (lookup_alloc _ _)).
  by rewrite ret_run, insert_alloc.
Qed.

Lemma build_run this h : build this h = Returns (currentQuery this) h.
Proof. reflexivity. Qed.

Lemma add_first p f v this h q :
  h !! currentQuery this = Some (ObjQuery q) → Queries q = None →
  add p f v this h
  = Returns this
      (<[currentQuery this := ObjQuery (with_Queries (S (length h)) q)]> h
       ++ [ObjQuery (leaf p f v); ObjArray [length h]]).
Proof.
  intros Hl Hq. unfold add. rewrite bind_run. unfold alloc.
  pose proof (lookup_lt_Some _ _ _ Hl) as Hlt.
  rewrite (append_first _ _ _ _ q) by (by rewrite ?lookup_app_l).
  rewrite ret_run, length_app, insert_app_l, <- app_assoc by done.
  cbn [length]. by rewrite Nat.add_1_r.
Qed.

Lemma add_next p f v this h q a elems :
  h !! currentQuery this = Some (ObjQuery q) → Queries q = Some a →
  h !! a = Some (ObjArray elems) →
  add p f v this h
  = Returns this
      (<[a := ObjArray (elems ++ [length h])]> h ++ [ObjQuery (leaf p f v)]).
Proof.
  intros Hl Hq Ha. unfold add. rewrite bind_run. unfold alloc.
  pose proof (lookup_lt_Some _ _ _ Hl) as Hlt.
  pose proof (lookup_lt_Some _ _ _ Ha) as Hlt'.
  rewrite (append_next _ _ _ _ q a elems) by (by rewrite ?lookup_app_l).
  by rewrite ret_run, insert_app_l.
Qed.
End methods.

(** ** Reading trees *)

Section reading.
Implicit Types (h : heap) (l a : loc) (q : Query).

Lemma lookup_fresh h (news : list obj) i :
  (h ++ news) !! (length h + i) = news !! i.
Proof. rewrite lookup_app_r by lia. f_equal. lia. Qed.

Lemma snapshot_leaf n h l q :
  h !! l = Some (ObjQuery q) → Queries q = None →
  snapshot (S n) h l
  = Some (QNode (Operator q) (Not q) (Property q) (Filter q) (Value q) None).
Proof. intros Hl Hq. cbn. by rewrite Hl, Hq. Qed.

Lemma snapshot_node n h l q a elems ts :
  h !! l = Some (ObjQuery q) → Queries q = Some a →
  h !! a = Some (ObjArray elems) →
  mapM (snapshot n h) elems = Some ts →
  snapshot (S n) h l
  = Some (QNode (Operator q) (Not q) (Property q) (Filter q) (Value q) (Some ts)).
Proof. intros Hl Hq Ha Hts. cbn. rewrite Hl, Hq, Ha. cbn. by rewrite Hts. Qed.
End reading.

Section fresh_builder.
Import QueryBuilder.
Implicit Types (h : heap) (n : nat).

Lemma observe_new condition h n :
  observe (S n) (qb ← constructor condition; build qb) h
  = Some (QNode (initial_Operator condition) false None None None None).
Proof.
  unfold observe. rewrite bind_run, constructor_run, build_run.
  cbn [currentQuery].
  by rewrite (snapshot_leaf _ _ _ _ (lookup_alloc _ _)).
Qed.

Lemma new_add_run condition p f v h :
  (qb ← constructor condition; add p f v qb) h
  = Returns (mk (length h))
      (h ++ [ObjQuery (with_Queries (length h + 2) (initial condition));
             ObjQuery (leaf p f v); ObjArray [length h + 1]]).
Proof.
  rewrite bind_run, constructor_run.
  rewrite (add_first p f v (mk (length h)) _ _ (lookup_alloc _ _)) by done.
  cbn [currentQuery]. rewrite insert_alloc, length_app, <- app_assoc. cbn [length app].
  by rewrite <- Nat.add_succ_r.
Qed.
End fresh_builder.

Section chains.
Import QueryBuilder.
Implicit Types (h : heap) (n : nat) (calls : list (string * Filter.t * JsValue)).

Lemma adds_next calls this h q a elems :
  h !! currentQuery this = Some (ObjQuery q) → Queries q = Some a →
  h !! a = Some (ObjArray elems) →
  adds calls this h
  = Returns this
      (<[a := ObjArray (elems ++ seq (length h) (length calls))]> h
       ++ ((ObjQuery ∘ call_leaf) <$> calls)).
Proof.
  revert h elems. induction calls as [|[[p f] v] rest IH]; intros h elems Hl Hq Ha.
  - cbn. rewrite !app_nil_r, ret_run. by rewrite list_insert_id.
  - pose proof (lookup_lt_Some _ _ _ Hl) as Hlt.
    pose proof (lookup_lt_Some _ _ _ Ha) as Hlt'.
    assert (a ≠ currentQuery this) by (intros ->; congruence).
    cbn [adds]. rewrite bind_run, (add_next _ _ _ _ _ _ _ _ Hl Hq Ha).
    rewrite (IH _ (elems ++ [length h])); cycle 1.
    + rewrite lookup_app_l by (by rewrite length_insert).
      by rewrite list_lookup_insert_ne.
    + done.
    + rewrite lookup_app_l by (by rewrite length_insert).
      by rewrite list_lookup_insert_eq.
    + rewrite insert_app_l by (by rewrite length_insert).
      rewrite list_insert_insert_eq, length_app, length_insert.
      cbn [length fmap list_fmap seq compose call_leaf].
      rewrite <- !app_assoc. cbn [app]. by rewrite Nat.add_1_r.
Qed.

Lemma new_adds_run condition call rest h :
  (qb ← constructor condition; adds (call :: rest) qb) h
  = Returns (mk (length h))
      (h ++ [ObjQuery (with_Queries (length h + 2) (initial condition));
             ObjQuery (call_leaf call);
             ObjArray ((length h + 1) :: seq (length h + 3) (length rest))]
         ++ ((ObjQuery ∘ call_leaf) <$> rest)).
Proof.
  destruct call as [[p f] v]. cbn [adds].
  pose proof (new_add_run condition p f v h) as Hadd.
  rewrite bind_run, constructor_run in Hadd.
  rewrite bind_run, constructor_run, bind_run, Hadd.
  set (root := with_Queries (length h + 2) (initial condition)).
  rewrite (adds_next rest (mk (length h)) _ root (length h + 2) [length h + 1]).
  - f_equal. rewrite length_app. cbn [length].
    rewrite (insert_app_r h _ 2). cbn. by rewrite <- app_assoc.
  - cbn [currentQuery]. by rewrite <- (Nat.add_0_r (length h)) at 1; rewrite lookup_fresh.
  - done.
  - by rewrite lookup_fresh.
Qed.

Lemma leaves_at (H : heap) base calls :
  (∀ i c, calls !! i = Some c →
          H !! (base + i) = Some (ObjQuery (call_leaf c))) →
  Forall2 (λ l c, H !! l = Some (ObjQuery (call_leaf c)))
          (seq base (length calls)) calls.
Proof.
  intros Hat. apply Forall2_same_length_lookup_2.
  - by rewrite length_seq.
  - intros i l c [-> _]%lookup_seq Hc. by apply Hat.
Qed.

Lemma snapshot_leaves n (H : heap) locs calls :
  Forall2 (λ l c, H !! l = Some (ObjQuery (call_leaf c))) locs calls →
  mapM (snapshot (S n) H) locs = Some (call_tree <$> calls).
Proof.
  intros Hall. apply mapM_Some. 
  induction Hall as [|l [[p f] v] locs calls Hl _ IH]; constructor; [|done].
  by rewrite (snapshot_leaf _ _ _ _ Hl).
Qed.

Lemma observe_new_adds condition calls h n :
  observe (S (S n)) (qb ← constructor condition; qb ← adds calls qb; build qb) h
  = Some (QNode (initial_Operator condition) false None None None
            (match calls with [] => None | _ => Some (call_tree <$> calls) end)).
Proof.
  unfold observe.
  destruct calls as [|call rest].
  - cbn [adds]. rewrite bind_run, constructor_run, bind_run, ret_run, build_run.
    cbn [currentQuery]. by rewrite (snapshot_leaf _ _ _ _ (lookup_alloc _ _)).
  - pose proof (new_adds_run condition call rest h) as Hrun.
    rewrite bind_run, constructor_run in Hrun.
    rewrite bind_run, constructor_run, bind_run, Hrun, build_run.
    cbn [currentQuery].
    set (root := with_Queries (length h + 2) (initial condition)).
    set (arr := (length h + 1) :: seq (length h + 3) (length rest)).
    set (H := _ ++ _).
    assert (Hat : ∀ i, H !! (length h + i)
                       = ([ObjQuery root; ObjQuery (call_leaf call); ObjArray arr]
                          ++ ((ObjQuery ∘ call_leaf) <$> rest)) !! i).
    { intros i. unfold H. by rewrite lookup_fresh. }
    rewrite (snapshot_node _ H _ root (length h + 2) arr (call_tree <$> call :: rest)).
    + done.
    + by rewrite <- (Nat.add_0_r (length h)), Hat.
    + done.
    + by rewrite Hat.
    + apply (snapshot_leaves n H arr (call :: rest)). constructor.
      * by rewrite Hat.
      * apply leaves_at. intros i c Hc.
        rewrite <- Nat.add_assoc, Hat. cbn.
        etrans; [apply list_lookup_fmap|]. by rewrite Hc.
Qed.
End chains.

Section groups.
Import QueryBuilder.
Implicit Types (h : heap) (this : QueryBuilder.t) (q : Query).

Lemma group_run groupAction condition this h :
  group groupAction condition this h
  = match groupAction (mk (length h)) (h ++ [ObjQuery (initial condition)]) with
    | Returns _ h2 =>
        (ensure_Queries (currentQuery this);;
         push_Queries (currentQuery this) (length h);; mret this) h2
    | Throws e h2 => Throws e h2
    end.
Proof.
  unfold group. rewrite bind_run, constructor_run, bind_run.
  by destruct (groupAction _ _).
Qed.

Lemma group_throws groupAction condition this h e h' :
  groupAction (mk (length h)) (h ++ [ObjQuery (initial condition)]) = Throws e h' →
  group groupAction condition this h = Throws e h'.
Proof. intros Hcb. by rewrite group_run, Hcb. Qed.

Lemma group_first groupAction condition this h h2 q :
  groupAction (mk (length h)) (h ++ [ObjQuery (initial condition)]) = Returns tt h2 →
  h2 !! currentQuery this = Some (ObjQuery q) → Queries q = None →
  group groupAction condition this h
  = Returns this
      (<[currentQuery this := ObjQuery (with_Queries (length h2) q)]> h2
       ++ [ObjArray [length h]]).
Proof.
  intros Hcb Hl Hq. rewrite group_run, Hcb.
  by rewrite (append_first _ _ _ _ q).
Qed.

Lemma group_next groupAction condition this h h2 q a elems :
  groupAction (mk (length h)) (h ++ [ObjQuery (initial condition)]) = Returns tt h2 →
  h2 !! currentQuery this = Some (ObjQuery q) → Queries q = Some a →
  h2 !! a = Some (ObjArray elems) →
  group groupAction condition this h
  = Returns this (<[a := ObjArray (elems ++ [length h])]> h2).
Proof.
  intros Hcb Hl Hq Ha. rewrite group_run, Hcb.
  by rewrite (append_next _ _ _ _ q a elems).
Qed.
End groups.

(** ** Properties kept by every step of caller code *)

Section client_steps.
Import QueryBuilder.
Variable R : heap → heap → Prop.
Hypothesis R_refl : ∀ h, R h h.
Hypothesis R_trans : ∀ h1 h2 h3, R h1 h2 → R h2 h3 → R h1 h3.
Hypothesis R_new_node : ∀ h q, Not q = false → Queries q = None →
  R h (h ++ [ObjQuery q]).
Hypothesis R_new_array : ∀ h, R h (h ++ [ObjArray []]).
Hypothesis R_set_Operator : ∀ h l q op, h !! l = Some (ObjQuery q) →
  R h (<[l := ObjQuery (with_Operator op q)]> h).
Hypothesis R_set_Queries : ∀ h l q a, h !! l = Some (ObjQuery q) →
  Queries q = None → h !! a = Some (ObjArray []) →
  R h (<[l := ObjQuery (with_Queries a q)]> h).
Hypothesis R_push : ∀ h a elems x, h !! a = Some (ObjArray elems) →
  R h (<[a := ObjArray (elems ++ [x])]> h).

Lemma keeps_bind {A B} (m : JS A) (k : A → JS B) :
  keeps R m → (∀ a, keeps R (k a)) → keeps R (m ≫= k).
Proof.
  intros Hm Hk h. rewrite bind_run. specialize (Hm h).
  destruct (m h) as [a h1|e h1]; [|done].
  eapply R_trans; [exact Hm|apply Hk].
Qed.

Lemma keeps_ret {A} (a : A) : keeps R (mret a).
Proof. intros h. apply R_refl. Qed.

Lemma keeps_throw {A} e : keeps R (throw (A := A) e).
Proof. intros h. apply R_refl. Qed.

Lemma keeps_catch {A} (m : JS A) handler :
  keeps R m → (∀ e, keeps R (handler e)) → keeps R (try_catch m handler).
Proof.
  intros Hm Hk h. unfold try_catch. specialize (Hm h).
  destruct (m h) as [a h1|e h1]; [done|].
  eapply R_trans; [exact Hm|apply Hk].
Qed.

Lemma keeps_assign_Operator l op : keeps R (assign_Operator l op).
Proof.
  intros h. destruct (h !! l) as [[q|elems]|] eqn:Hl.
  - rewrite (assign_Operator_run _ _ _ _ Hl). by apply R_set_Operator.
  - unfold assign_Operator, getQuery. rewrite bind_run, Hl. apply R_refl.
  - unfold assign_Operator, getQuery. rewrite bind_run, Hl. apply R_refl.
Qed.

Lemma keeps_ensure_Queries l : keeps R (ensure_Queries l).
Proof.
  intros h. unfold ensure_Queries. rewrite bind_run. unfold getQuery.
  destruct (h !! l) as [[q|elems]|] eqn:Hl; try apply R_refl.
  destruct (Queries q) as [a|] eqn:Hq; [apply R_refl|].
  pose proof (lookup_lt_Some _ _ _ Hl) as Hlt.
  rewrite bind_run. unfold alloc.
  rewrite (setQuery_run _ _ q) by (by rewrite lookup_app_l).
  eapply R_trans; [apply R_new_array|].
  apply R_set_Queries; [by rewrite lookup_app_l|done|apply lookup_alloc].
Qed.

Lemma keeps_push_Queries l x : keeps R (push_Queries l x).
Proof.
  intros h. unfold push_Queries. rewrite bind_run. unfold getQuery.
  destruct (h !! l) as [[q|elems]|] eqn:Hl; try apply R_refl.
  destruct (Queries q) as [a|] eqn:Hq; [|apply R_refl].
  unfold push. destruct (h !! a) as [[q'|elems]|] eqn:Ha; try apply R_refl.
  by apply R_push.
Qed.

Lemma keeps_constructor condition : keeps R (constructor condition).
Proof. intros h. rewrite constructor_run. by apply R_new_node. Qed.

Lemma keeps_add p f v this : keeps R (add p f v this).
Proof.
  unfold add. apply keeps_bind; [intros h; by apply R_new_node|intros query].
  apply keeps_bind; [apply keeps_ensure_Queries|intros _].
  apply keeps_bind; [apply keeps_push_Queries|intros _]. apply keeps_ret.
Qed.

Theorem client_keeps A (m : JS A) : client A m → keeps R m.
Proof.
  induction 1 as [A a|A B m k _ IHm _ IHk|A v|A m handler _ IHm _ IHh
                 |condition|this|this|this|p f v this|this
                 |groupAction condition this _ IH].
  - apply keeps_ret.
  - by apply keeps_bind.
  - apply keeps_throw.
  - by apply keeps_catch.
  - apply keeps_constructor.
  - apply keeps_bind; [apply keeps_assign_Operator|intros; apply keeps_ret].
  - apply keeps_bind; [apply keeps_assign_Operator|intros; apply keeps_ret].
  - apply keeps_bind; [apply keeps_assign_Operator|intros; apply keeps_ret].
  - apply keeps_add.
  - apply keeps_ret.
  - unfold group. apply keeps_bind; [apply keeps_constructor|intros g].
    apply keeps_bind; [apply IH|intros _].
    apply keeps_bind; [apply keeps_ensure_Queries|intros _].
    apply keeps_bind; [apply keeps_ret|intros built].
    apply keeps_bind; [apply keeps_push_Queries|intros _]. apply keeps_ret.
Qed.
End client_steps.

(** ** The three invariants *)

(** Turn a hypothesis on a boolean check into its statement on lookups. *)
Ltac unpack H spec :=
  let H' := fresh in pose proof (proj1 (spec _) H) as H'; clear H; rename H' into H.

Section invariants.
Implicit Types (h : heap) (l a : loc) (q : Query).

Lemma all_Not_false_spec h :
  all_Not_false h = true ↔ ∀ l q, h !! l = Some (ObjQuery q) → Not q = false.
Proof.
  unfold all_Not_false. rewrite forallb_forall. split.
  - intros Hall l q Hl.
    assert (Hin : List.In (ObjQuery q) h).
    { apply list_elem_of_In, list_elem_of_lookup. eauto. }
    apply Hall in Hin. by destruct (Not q).
  - intros Hall o [l Hl]%list_elem_of_In%list_elem_of_lookup.
    destruct o as [q|elems]; [|done]. by rewrite (Hall _ _ Hl).
Qed.

Lemma well_formed_spec h :
  well_formed h = true ↔
  ∀ l q a, h !! l = Some (ObjQuery q) → Queries q = Some a →
           ∃ elems, h !! a = Some (ObjArray elems).
Proof.
  unfold well_formed. rewrite forallb_forall. split.
  - intros Hall l q a Hl Hq.
    assert (Hin : List.In (ObjQuery q) h).
    { apply list_elem_of_In, list_elem_of_lookup. eauto. }
    apply Hall in Hin. rewrite Hq in Hin.
    destruct (h !! a) as [[|elems]|]; try done. by exists elems.
  - intros Hall o [l Hl]%list_elem_of_In%list_elem_of_lookup.
    destruct o as [q|elems]; [|done].
    destruct (Queries q) as [a|] eqn:Hq; [|done].
    by destruct (Hall _ _ _ Hl Hq) as [elems ->].
Qed.

Lemma grows_refl h : grows h h.
Proof.
  split; [done|]. split.
  - intros a elems Ha. exists []. by rewrite app_nil_r.
  - intros l q Hl. by exists q.
Qed.

Lemma grows_trans h1 h2 h3 : grows h1 h2 → grows h2 h3 → grows h1 h3.
Proof.
  intros (Hlen1 & Harr1 & Hnode1) (Hlen2 & Harr2 & Hnode2).
  split; [lia|]. split.
  - intros a elems Ha.
    destruct (Harr1 _ _ Ha) as [more1 Ha2].
    destruct (Harr2 _ _ Ha2) as [more2 Ha3].
    exists (more1 ++ more2). by rewrite app_assoc.
  - intros l q Hl.
    destruct (Hnode1 _ _ Hl) as (q2 & Hl2 & Hq2).
    destruct (Hnode2 _ _ Hl2) as (q3 & Hl3 & Hq3).
    exists q3. split; [done|]. intros a Ha. by apply Hq3, Hq2.
Qed.

Lemma grows_alloc h o : grows h (h ++ [o]).
Proof.
  split; [rewrite length_app; lia|]. split.
  - intros a elems Ha. exists [].
    by rewrite app_nil_r, lookup_app_l by (by eapply lookup_lt_Some).
  - intros l q Hl. exists q.
    by rewrite lookup_app_l by (by eapply lookup_lt_Some).
Qed.

Lemma grows_set_node h l q q' :
  h !! l = Some (ObjQuery q) →
  (∀ a, Queries q = Some a → Queries q' = Some a) →
  grows h (<[l := ObjQuery q']> h).
Proof.
  intros Hl Hq. pose proof (lookup_lt_Some _ _ _ Hl) as Hlt.
  split; [by rewrite length_insert|]. split.
  - intros a elems Ha. exists [].
    rewrite app_nil_r, list_lookup_insert_ne; [done|]. intros ->. congruence.
  - intros l' q0 Hl'. destruct (decide (l = l')) as [<-|Hne].
    + exists q'. rewrite list_lookup_insert_eq by done. split; [done|].
      assert (q0 = q) as -> by congruence. exact Hq.
    + exists q0. by rewrite list_lookup_insert_ne.
Qed.

Lemma grows_push h a elems x :
  h !! a = Some (ObjArray elems) →
  grows h (<[a := ObjArray (elems ++ [x])]> h).
Proof.
  intros Ha. pose proof (lookup_lt_Some _ _ _ Ha) as Hlt.
  split; [by rewrite length_insert|]. split.
  - intros a' elems' Ha'. destruct (decide (a = a')) as [<-|Hne].
    + exists [x]. rewrite list_lookup_insert_eq by done. congruence.
    + exists []. by rewrite app_nil_r, list_lookup_insert_ne.
  - intros l q Hl. exists q.
    rewrite list_lookup_insert_ne; [done|]. intros ->. congruence.
Qed.

Lemma client_grows A (m : JS A) h : client A m → grows h (final (m h)).
Proof.
  intros Hm. revert h.
  apply (client_keeps grows); [apply grows_refl|apply grows_trans| | | | | |done].
  - intros; apply grows_alloc.
  - intros; apply grows_alloc.
  - intros h l q op Hl. by apply (grows_set_node _ _ q).
  - intros h l q a Hl Hq _. apply (grows_set_node _ _ q); [done|]. congruence.
  - intros; by apply grows_push.
Qed.

Lemma client_Not_false A (m : JS A) h :
  client A m → all_Not_false h = true → all_Not_false (final (m h)) = true.
Proof.
  intros Hm. revert h.
  apply (client_keeps (λ h h', all_Not_false h = true → all_Not_false h' = true));
    [auto|auto| | | | | |done].
  - intros h q Hn _ Hall. unpack Hall all_Not_false_spec. apply all_Not_false_spec.
    intros l q' [[_ Hl]|[_ [= <-]]]%lookup_snoc_Some; eauto.
  - intros h Hall. unpack Hall all_Not_false_spec. apply all_Not_false_spec.
    intros l q' [[_ Hl]|[_ [=]]]%lookup_snoc_Some; eauto.
  - intros h l q op Hl Hall. unpack Hall all_Not_false_spec. apply all_Not_false_spec.
    intros l' q' [(_ & [= <-] & _)|[_ Hl']]%list_lookup_insert_Some; cbn; eauto.
  - intros h l q a Hl _ _ Hall. unpack Hall all_Not_false_spec. apply all_Not_false_spec.
    intros l' q' [(_ & [= <-] & _)|[_ Hl']]%list_lookup_insert_Some; cbn; eauto.
  - intros h a elems x Ha Hall. unpack Hall all_Not_false_spec. apply all_Not_false_spec.
    intros l' q' [(_ & [=] & _)|[_ Hl']]%list_lookup_insert_Some; eauto.
Qed.

Lemma array_alloc h news a elems :
  h !! a = Some (ObjArray elems) → (h ++ news) !! a = Some (ObjArray elems).
Proof. intros Ha. by rewrite lookup_app_l by (by eapply lookup_lt_Some). Qed.

Lemma array_set_node h l q q' a elems :
  h !! l = Some (ObjQuery q) → h !! a = Some (ObjArray elems) →
  <[l := ObjQuery q']> h !! a = Some (ObjArray elems).
Proof.
  intros Hl Ha. rewrite list_lookup_insert_ne; [done|]. intros ->. congruence.
Qed.

Lemma client_well_formed A (m : JS A) h :
  client A m → well_formed h = true → well_formed (final (m h)) = true.
Proof.
  intros Hm. revert h.
  apply (client_keeps (λ h h', well_formed h = true → well_formed h' = true));
    [auto|auto| | | | | |done].
  - intros h q _ Hq Hwf. unpack Hwf well_formed_spec. apply well_formed_spec.
    intros l q' a [[_ Hl]|[_ [= <-]]]%lookup_snoc_Some Hq'; [|congruence].
    destruct (Hwf _ _ _ Hl Hq') as [elems Ha]. eauto using array_alloc.
  - intros h Hwf. unpack Hwf well_formed_spec. apply well_formed_spec.
    intros l q' a [[_ Hl]|[_ [=]]]%lookup_snoc_Some Hq'.
    destruct (Hwf _ _ _ Hl Hq') as [elems Ha]. eauto using array_alloc.
  - intros h l q op Hl Hwf. unpack Hwf well_formed_spec. apply well_formed_spec.
    intros l' q' a [(_ & [= <-] & _)|[_ Hl']]%list_lookup_insert_Some Hq'.
    + destruct (Hwf _ _ _ Hl Hq') as [elems Ha]. eauto using array_set_node.
    + destruct (Hwf _ _ _ Hl' Hq') as [elems Ha]. eauto using array_set_node.
  - intros h l q a Hl Hq Ha Hwf. unpack Hwf well_formed_spec. apply well_formed_spec.
    intros l' q' a' [(_ & [= <-] & _)|[_ Hl']]%list_lookup_insert_Some Hq'.
    + injection Hq' as <-. eauto using array_set_node.
    + destruct (Hwf _ _ _ Hl' Hq') as [elems Ha']. eauto using array_set_node.
  - intros h a elems x Ha Hwf. unpack Hwf well_formed_spec. apply well_formed_spec.
    pose proof (lookup_lt_Some _ _ _ Ha) as Hlt.
    intros l' q' a' [(_ & [=] & _)|[_ Hl']]%list_lookup_insert_Some Hq'.
    destruct (Hwf _ _ _ Hl' Hq') as [elems' Ha'].
    destruct (decide (a = a')) as [<-|Hne].
    + rewrite list_lookup_insert_eq by done. eauto.
    + rewrite list_lookup_insert_ne by done. eauto.
Qed.

Lemma ready_spec h this :
  ready h this = true ↔
  ∃ q, h !! QueryBuilder.currentQuery this = Some (ObjQuery q)
       ∧ ∀ a, Queries q = Some a → ∃ elems, h !! a = Some (ObjArray elems).
Proof.
  unfold ready. split.
  - destruct (h !! _) as [[q|?]|]; try done. intros Hr. exists q. split; [done|].
    intros a Hq. rewrite Hq in Hr.
    destruct (h !! a) as [[?|elems]|]; try done. eauto.
  - intros (q & -> & Hq). destruct (Queries q) as [a|]; [|done].
    by destruct (Hq a eq_refl) as [elems ->].
Qed.

Lemma ready_later h h' this :
  ready h this = true → grows h h' → well_formed h' = true →
  ready h' this = true.
Proof.
  intros (q & Hl & _)%ready_spec (_ & _ & Hnode) Hwf. unpack Hwf well_formed_spec.
  destruct (Hnode _ _ Hl) as (q' & Hl' & _).
  apply ready_spec. exists q'. split; [done|]. intros a Hq'. eauto.
Qed.
End invariants.

(** ** Trees read from a store that satisfies an invariant *)

Section trees.
Implicit Types (h : heap) (l a : loc) (q : Query) (t : QueryTree).

Lemma snapshot_negate fuel h l t :
  all_Not_false h = true → snapshot fuel h l = Some t →
  all_negate_false t = true.
Proof.
  intros Hall. unpack Hall all_Not_false_spec.
  revert l t. induction fuel as [|fuel IH]; intros l t; [done|].
  cbn [snapshot]. destruct (h !! l) as [[q|?]|] eqn:Hl; try done.
  pose proof (Hall _ _ Hl) as Hn.
  destruct (Queries q) as [a|].
  - destruct (h !! a) as [[?|elems]|]; try done.
    destruct (mapM (snapshot fuel h) elems) as [ts|] eqn:Hts; [|done].
    cbn. intros [= <-]. cbn. rewrite Hn. cbn.
    apply mapM_Some in Hts. clear Hl.
    induction Hts as [|x y elems ts Hxy _ IHts]; [done|].
    cbn. by rewrite (IH _ _ Hxy), IHts.
  - cbn. intros [= <-]. cbn. by rewrite Hn.
Qed.

Lemma closed_Queries h l q a :
  closed h = true → h !! l = Some (ObjQuery q) → Queries q = Some a →
  a < length h.
Proof.
  unfold closed. rewrite forallb_forall. intros Hc Hl Hq.
  assert (Hin : List.In (ObjQuery q) h).
  { apply list_elem_of_In, list_elem_of_lookup. eauto. }
  apply Hc in Hin. rewrite Hq in Hin. by apply Nat.ltb_lt.
Qed.

Lemma closed_elems h a elems :
  closed h = true → h !! a = Some (ObjArray elems) →
  Forall (λ x, x < length h) elems.
Proof.
  unfold closed. rewrite forallb_forall. intros Hc Ha.
  assert (Hin : List.In (ObjArray elems) h).
  { apply list_elem_of_In, list_elem_of_lookup. eauto. }
  apply Hc in Hin. rewrite forallb_forall in Hin.
  apply Forall_forall. intros x Hx%list_elem_of_In. by apply Nat.ltb_lt, Hin.
Qed.

Lemma mapM_agree {A B} (f g : A → option B) (xs : list A) :
  Forall (λ x, f x = g x) xs → mapM f xs = mapM g xs.
Proof. induction 1 as [|x xs Hx _ IH]; [done|]. cbn. by rewrite Hx, IH. Qed.

(** Objects allocated later do not show in the tree of an older node. *)
Lemma snapshot_prefix fuel h news l :
  closed h = true → l < length h →
  snapshot fuel (h ++ news) l = snapshot fuel h l.
Proof.
  intros Hc. revert l. induction fuel as [|fuel IH]; intros l Hlt; [done|].
  cbn [snapshot]. rewrite lookup_app_l by done.
  destruct (h !! l) as [[q|?]|] eqn:Hl; try done.
  destruct (Queries q) as [a|] eqn:Hq; [|done].
  pose proof (closed_Queries _ _ _ _ Hc Hl Hq) as Ha.
  rewrite lookup_app_l by done.
  destruct (h !! a) as [[?|elems]|] eqn:Helems; try done.
  rewrite (mapM_agree (snapshot fuel (h ++ news)) (snapshot fuel h)); [done|].
  eapply Forall_impl; [by eapply closed_elems|]. intros x Hx. by apply IH.
Qed.
End trees.

(** ** Appending to a ready builder *)

Section appending.
Import QueryBuilder.
Implicit Types (h : heap) (l a : loc) (q : Query) (this : QueryBuilder.t).

Lemma children_of_none h l q :
  h !! l = Some (ObjQuery q) → Queries q = None → children_of h l = [].
Proof. intros Hl Hq. unfold children_of. by rewrite Hl, Hq. Qed.

Lemma children_of_some h l q a elems :
  h !! l = Some (ObjQuery q) → Queries q = Some a →
  h !! a = Some (ObjArray elems) → children_of h l = elems.
Proof. intros Hl Hq Ha. unfold children_of. by rewrite Hl, Hq, Ha. Qed.

(** What appending one reference [x] to the children of a ready builder
    does to the store: used for [add] (after the leaf is allocated) and for
    [group] (after the callback has returned). *)
Lemma append_ready {A} (r : A) h this x :
  ready h this = true →
  ∃ h', (ensure_Queries (currentQuery this);;
         push_Queries (currentQuery this) x;; mret r) h = Returns r h'
        ∧ children_of h' (currentQuery this)
          = children_of h (currentQuery this) ++ [x]
        ∧ ready h' this = true
        ∧ length h ≤ length h'
        ∧ (∀ l q, l ≠ currentQuery this → h !! l = Some (ObjQuery q) →
                  h' !! l = Some (ObjQuery q))
        ∧ (∀ l o, l ≠ currentQuery this → h !! l = Some o →
                  (∀ q, h !! currentQuery this = Some (ObjQuery q) →
                        Queries q ≠ Some l) →
                  h' !! l = Some o).
Proof.
  intros (q & Hl & Harr)%ready_spec.
  pose proof (lookup_lt_Some _ _ _ Hl) as Hlt.
  destruct (Queries q) as [a|] eqn:Hq.
  - destruct (Harr a eq_refl) as [elems Ha].
    pose proof (lookup_lt_Some _ _ _ Ha) as Hlt'.
    assert (a ≠ currentQuery this) as Hne by (intros ->; congruence).
    eexists. split; [by apply (append_next _ _ _ _ q a elems)|].
    assert (Hl' : <[a:=ObjArray (elems ++ [x])]> h !! currentQuery this
                  = Some (ObjQuery q)) by (by rewrite list_lookup_insert_ne).
    assert (Ha' : <[a:=ObjArray (elems ++ [x])]> h !! a
                  = Some (ObjArray (elems ++ [x])))
      by (by rewrite list_lookup_insert_eq).
    repeat split.
    + rewrite (children_of_some _ _ _ _ _ Hl' Hq Ha').
      by rewrite (children_of_some _ _ _ _ _ Hl Hq Ha).
    + apply ready_spec. exists q. split; [done|].
      intros a0 Ha0. assert (a0 = a) as -> by congruence. eauto.
    + by rewrite length_insert.
    + intros l q' _ Hq'. rewrite list_lookup_insert_ne; [done|].
      intros ->. congruence.
    + intros l o _ Hl0 Hnot. rewrite list_lookup_insert_ne; [done|].
      intros ->. by apply (Hnot q).
  - eexists. split; [by apply (append_first _ _ _ _ q)|].
    set (q' := with_Queries (length h) q).
    assert (Hl' : (<[currentQuery this:=ObjQuery q']> h ++ [ObjArray [x]])
                  !! currentQuery this = Some (ObjQuery q')).
    { rewrite lookup_app_l by (by rewrite length_insert).
      by rewrite list_lookup_insert_eq. }
    assert (Ha' : (<[currentQuery this:=ObjQuery q']> h ++ [ObjArray [x]])
                  !! length h = Some (ObjArray [x])).
    { rewrite <- (length_insert h (currentQuery this) (ObjQuery q')).
      apply lookup_alloc. }
    repeat split.
    + rewrite (children_of_some _ _ _ _ _ Hl' eq_refl Ha').
      by rewrite (children_of_none _ _ _ Hl Hq).
    + apply ready_spec. exists q'. split; [done|]. intros ? [= <-]. eauto.
    + rewrite length_app, length_insert. lia.
    + intros l q0 Hne Hq0. pose proof (lookup_lt_Some _ _ _ Hq0).
      rewrite lookup_app_l by (by rewrite length_insert).
      by rewrite list_lookup_insert_ne.
    + intros l o Hne Hl0 _. pose proof (lookup_lt_Some _ _ _ Hl0).
      rewrite lookup_app_l by (by rewrite length_insert).
      by rewrite list_lookup_insert_ne.
Qed.

Lemma ready_alloc h news this :
  ready h this = true →
  ready (h ++ news) this = true
  ∧ children_of (h ++ news) (currentQuery this) = children_of h (currentQuery this).
Proof.
  intros (q & Hl & Harr)%ready_spec.
  assert (Hl' : (h ++ news) !! currentQuery this = Some (ObjQuery q))
    by (by rewrite lookup_app_l by (by eapply lookup_lt_Some)).
  split.
  - apply ready_spec. exists q. split; [done|]. intros a Hq.
    destruct (Harr a Hq) as [elems Ha]. eauto using array_alloc.
  - destruct (Queries q) as [a|] eqn:Hq.
    + destruct (Harr a eq_refl) as [elems Ha].
      rewrite (children_of_some _ _ _ _ _ Hl Hq Ha).
      by apply (children_of_some _ _ q a), array_alloc.
    + by rewrite (children_of_none _ _ _ Hl Hq), (children_of_none _ _ _ Hl' Hq).
Qed.

Lemma add_ready p f v this h :
  ready h this = true →
  ∃ h', add p f v this h = Returns this h'
        ∧ children_of h' (currentQuery this)
          = children_of h (currentQuery this) ++ [length h]
        ∧ h' !! length h = Some (ObjQuery (leaf p f v))
        ∧ ready h' this = true
        ∧ length h < length h'
        ∧ (∀ l q, l ≠ currentQuery this → h !! l = Some (ObjQuery q) →
                  h' !! l = Some (ObjQuery q)).
Proof.
  intros Hr.
  pose proof (proj1 (ready_spec _ _) Hr) as (q0 & Hl0 & _).
  pose proof (lookup_lt_Some _ _ _ Hl0) as Hlt.
  destruct (ready_alloc h [ObjQuery (leaf p f v)] this Hr) as [Hr1 Hkids].
  destruct (append_ready this _ this (length h) Hr1)
    as (h' & Hrun & Hkids' & Hr' & Hlen & Hnodes & _).
  exists h'. split; [|repeat split].
  - unfold add. by rewrite bind_run.
  - by rewrite Hkids', Hkids.
  - apply Hnodes; [lia|apply lookup_alloc].
  - done.
  - rewrite length_app in Hlen. cbn in Hlen. lia.
  - intros l q Hne Hl. apply Hnodes; [done|].
    by rewrite lookup_app_l by (by eapply lookup_lt_Some).
Qed.

Lemma adds_ready calls this h :
  ready h this = true →
  ∃ h' locs, adds calls this h = Returns this h'
        ∧ children_of h' (currentQuery this)
          = children_of h (currentQuery this) ++ locs
        ∧ Forall2 (λ l c, h' !! l = Some (ObjQuery (call_leaf c))) locs calls
        ∧ ready h' this = true
        ∧ length h ≤ length h'
        ∧ (∀ l q, l ≠ currentQuery this → h !! l = Some (ObjQuery q) →
                  h' !! l = Some (ObjQuery q)).
Proof.
  revert h. induction calls as [|[[p f] v] rest IH]; intros h Hr.
  - exists h, []. by rewrite app_nil_r.
  - destruct (add_ready p f v this h Hr)
      as (h1 & Hrun1 & Hkids1 & Hleaf1 & Hr1 & Hlen1 & Hnodes1).
    destruct (IH h1 Hr1) as (h' & locs & Hrun & Hkids & Hleaves & Hr' & Hlen & Hnodes).
    pose proof (proj1 (ready_spec _ _) Hr) as (q0 & Hl0 & _).
    pose proof (lookup_lt_Some _ _ _ Hl0) as Hlt.
    exists h', (length h :: locs). split; [|repeat split].
    + cbn [adds]. by rewrite bind_run, Hrun1.
    + by rewrite Hkids, Hkids1, <- app_assoc.
    + constructor; [|done]. apply Hnodes; [lia|done].
    + done.
    + lia.
    + intros l q Hne Hl. by apply Hnodes, Hnodes1.
Qed.

Lemma group_ready groupAction condition this h h2 :
  groupAction (mk (length h)) (h ++ [ObjQuery (initial condition)])
  = Returns tt h2 →
  ready h2 this = true →
  ∃ h', group groupAction condition this h = Returns this h'
        ∧ children_of h' (currentQuery this)
          = children_of h2 (currentQuery this) ++ [length h]
        ∧ ready h' this = true
        ∧ length h2 ≤ length h'
        ∧ (∀ l q, l ≠ currentQuery this → h2 !! l = Some (ObjQuery q) →
                  h' !! l = Some (ObjQuery q))
        ∧ (∀ l o, l ≠ currentQuery this → h2 !! l = Some o →
                  (∀ q, h2 !! currentQuery this = Some (ObjQuery q) →
                        Queries q ≠ Some l) →
                  h' !! l = Some o).
Proof.
  intros Hcb Hr.
  destruct (append_ready this h2 this (length h) Hr) as (h' & Hrun & Hrest).
  exists h'. split; [|done]. by rewrite group_run, Hcb.
Qed.
End appending.

(** ** Callbacks that use only the builder they are given *)

Section frames.
Import QueryBuilder.
Implicit Types (h : heap) (l a n : nat) (q : Query) (this g : QueryBuilder.t).

Lemma call_nested_ind (P : call → Prop) :
  P CallAnd → P CallOr → P CallXor →
  (∀ p f v, P (CallAdd p f v)) →
  (∀ body condition, Forall P body → P (CallGroup body condition)) →
  (∀ v, P (CallThrow v)) →
  ∀ c, P c.
Proof.
  intros Hand Hor Hxor Hadd Hgroup Hthrow. fix IH 1.
  intros [| | |p f v|body condition|v];
    [apply Hand|apply Hor|apply Hxor|apply Hadd| |apply Hthrow].
  apply Hgroup. induction body as [|c body IHbody]; constructor;
    [apply IH|exact IHbody].
Qed.

Lemma owned_alloc n h news this : owned n h this → owned n (h ++ news) this.
Proof.
  intros (Hn & Hr & Harr).
  pose proof (proj1 (ready_spec _ _) Hr) as (q & Hl & _).
  pose proof (lookup_lt_Some _ _ _ Hl) as Hlt.
  split; [done|]. split; [by apply ready_alloc|].
  intros q' a. rewrite lookup_app_l by done. apply Harr.
Qed.

Lemma owned_fresh h condition :
  owned (length h) (h ++ [ObjQuery (initial condition)]) (mk (length h)).
Proof.
  split; [done|]. split.
  - unfold ready. cbn [currentQuery]. by rewrite lookup_alloc.
  - intros q a. cbn [currentQuery]. rewrite lookup_alloc. by intros [= <-].
Qed.

Lemma frame_assign {A} (r : A) n h this op :
  owned n h this →
  ∃ h', (assign_Operator (currentQuery this) op;; mret r) h = Returns r h'
        ∧ take n h' = take n h ∧ owned n h' this.
Proof.
  intros (Hn & Hr & Harr).
  pose proof (proj1 (ready_spec _ _) Hr) as (q & Hl & Hq).
  pose proof (lookup_lt_Some _ _ _ Hl) as Hlt.
  eexists. split; [by rewrite bind_run, (assign_Operator_run _ _ _ _ Hl)|].
  split; [by apply take_insert_ge|].
  assert (Hl' : <[currentQuery this:=ObjQuery (with_Operator op q)]> h
                !! currentQuery this = Some (ObjQuery (with_Operator op q)))
    by (by apply list_lookup_insert_eq).
  split; [done|]. split.
  - apply ready_spec. eexists. split; [done|]. intros a Ha.
    destruct (Hq a Ha) as [elems Helems]. eauto using array_set_node.
  - intros q' a. rewrite Hl'. intros [= <-] Ha. exact (Harr q a Hl Ha).
Qed.

Lemma frame_append {A} (r : A) n h this x :
  owned n h this →
  ∃ h', (ensure_Queries (currentQuery this);;
         push_Queries (currentQuery this) x;; mret r) h = Returns r h'
        ∧ take n h' = take n h ∧ owned n h' this.
Proof.
  intros (Hn & Hr & Harr).
  pose proof (proj1 (ready_spec _ _) Hr) as (q & Hl & Hq).
  pose proof (lookup_lt_Some _ _ _ Hl) as Hlt.
  destruct (append_ready r h this x Hr) as (h' & Hrun & _ & Hr' & _).
  exists h'. split; [done|].
  destruct (Queries q) as [a|] eqn:Hqa.
  - destruct (Hq a eq_refl) as [elems Ha].
    pose proof (lookup_lt_Some _ _ _ Ha) as Hlta.
    assert (a ≠ currentQuery this) as Hne by (intros ->; congruence).
    rewrite (append_next _ _ _ _ q a elems) in Hrun by done.
    injection Hrun as <-.
    split; [apply take_insert_ge; by eapply Harr|].
    split; [done|]. split; [done|].
    intros q' a'. rewrite list_lookup_insert_ne by done. apply Harr.
  - rewrite (append_first _ _ _ _ q) in Hrun by done.
    injection Hrun as <-.
    split.
    + rewrite take_app_le by (rewrite length_insert; lia).
      by apply take_insert_ge.
    + split; [done|]. split; [done|].
      intros q' a'. rewrite lookup_app_l by (by rewrite length_insert).
      rewrite list_lookup_insert_eq by done. intros [= <-] [= <-]. lia.
Qed.

Lemma framed_set_operator n g h op :
  owned n h g →
  framed n g ((assign_Operator (currentQuery g) op;; mret g);; mret tt) h.
Proof.
  intros Ho. destruct (frame_assign g n h g op Ho) as (h' & Hrun & Htake & Ho').
  unfold framed. rewrite bind_run, Hrun, ret_run. cbn [final].
  split; [done|]. by intros ? [= <-].
Qed.

Lemma run_calls_frame body :
  Forall (λ c, ∀ n g h, owned n h g → framed n g (run_call c g) h) body →
  ∀ n g h, owned n h g → framed n g (run_calls body g) h.
Proof.
  induction 1 as [|c body Hc _ IH]; intros n g h Ho.
  - split; [done|]. by intros ? [= <-].
  - unfold run_calls. cbn [foldr]. fold (run_calls body g).
    destruct (Hc n g h Ho) as [Htake Hret].
    unfold framed. rewrite bind_run.
    destruct (run_call c g h) as [[] h1|e h1]; [|done].
    destruct (IH n g h1 (Hret h1 eq_refl)) as [Htake1 Hret1].
    split; [by rewrite Htake1|done].
Qed.

Lemma run_call_frame c :
  ∀ n g h, owned n h g → framed n g (run_call c g) h.
Proof.
  induction c as [| | |p f v|body condition IH|v] using call_nested_ind;
    intros n g h Ho.
  - by apply framed_set_operator.
  - by apply framed_set_operator.
  - by apply framed_set_operator.
  - pose proof Ho as (Hn & Hr & _).
    pose proof (proj1 (ready_spec _ _) Hr) as (q & Hl%lookup_lt_Some & _).
    destruct (frame_append g n _ g (length h)
                (owned_alloc n h [ObjQuery (leaf p f v)] g Ho))
      as (h' & Hrun & Htake & Ho').
    unfold framed. cbn [run_call]. unfold add.
    rewrite bind_run, bind_run. unfold alloc. cbv beta iota.
    change (mkQuery None false (Some p) (Some f) (Some v) None) with (leaf p f v).
    rewrite Hrun, ret_run. cbn [final].
    split; [|by intros ? [= <-]].
    rewrite Htake. apply take_app_le. lia.
  - pose proof Ho as (Hn & Hr & _).
    pose proof (proj1 (ready_spec _ _) Hr) as (q & Hl%lookup_lt_Some & _).
    unfold framed. cbn [run_call]. fold (run_calls body).
    rewrite bind_run, group_run.
    destruct (run_calls_frame body IH (length h) (mk (length h)) _
                (owned_fresh h condition)) as [Htake _].
    rewrite take_app_length in Htake.
    destruct (run_calls body _ _) as [[] h2|e h2]; cbn [final] in Htake.
    + assert (Hh2 : h2 = h ++ drop (length h) h2)
        by (by rewrite <- Htake at 1; rewrite take_drop).
      assert (Ho2 : owned n h2 g) by (rewrite Hh2; by apply owned_alloc).
      destruct (frame_append g n h2 g (length h) Ho2)
        as (h' & Hrun & Htake' & Ho').
      rewrite Hrun, ret_run. cbn [final].
      split; [|by intros ? [= <-]].
      rewrite Htake', Hh2. apply take_app_le. lia.
    + cbn [final]. split; [|done].
      rewrite <- Htake at 1. rewrite take_take. f_equal. lia.
  - split; [done|]. intros h'. discriminate.
Qed.

Lemma client_then_ret {A} (m : JS A) : client A m → client unit (m;; mret tt).
Proof. intros Hm. apply client_bind; [done|intros _; apply client_ret]. Qed.

(** A callback written as calls on a builder is caller code in the sense of
    [client]. *)
Lemma client_run_calls body g : client unit (run_calls body g).
Proof.
  revert g.
  assert (Hcall : ∀ c g, client unit (run_call c g)).
  { induction c as [| | |p f v|body' condition IH|v] using call_nested_ind;
      intros g; cbn [run_call].
    - apply client_then_ret, client_and.
    - apply client_then_ret, client_or.
    - apply client_then_ret, client_xor.
    - apply client_then_ret, client_add.
    - apply client_then_ret, client_group. intros k.
      induction IH as [|c cs Hc _ IHcs]; [apply client_ret|].
      cbn [foldr]. apply client_bind; [apply Hc|intros _; apply IHcs].
    - apply client_throw. }
  induction body as [|c body IH]; intros g; [apply client_ret|].
  unfold run_calls. cbn [foldr]. apply client_bind; [apply Hcall|intros _; apply IH].
Qed.

(** A callback written as calls on its own builder writes to nothing that
    was allocated before [group] made that builder. *)
Lemma chain_callback_frame body condition (h : heap) :
  h `prefix_of`
    final (run_calls body (mk (length h)) (h ++ [ObjQuery (initial condition)])).
Proof.
  destruct (run_calls_frame body
              (proj2 (Forall_forall _ _) (λ c _, run_call_frame c))
              (length h) (mk (length h)) _ (owned_fresh h condition))
    as [Htake _].
  rewrite take_app_length in Htake. rewrite <- Htake at 1. apply prefix_take.
Qed.
End frames.

(** ** Chains written call by call *)

(** Two computations agree when they go through the same calls: compare them
    outcome by outcome. *)
Ltac same_calls :=
  repeat (rewrite ?bind_run, ?ret_run; cbn [adds];
          match goal with
          | |- ?a = ?a => reflexivity
          | |- context [match ?x with Returns _ _ => _ | Throws _ _ => _ end] =>
              lazymatch x with
              | match _ with Returns _ _ => _ | Throws _ _ => _ end => fail
              | _ => destruct x
              end
          end).

Section written_out.
Import QueryBuilder.

Lemma observe_ext fuel (m m' : JS loc) h :
  m h = m' h → observe fuel m h = observe fuel m' h.
Proof. unfold observe. by intros ->. Qed.

Lemma one_add_as_adds condition p f v h :
  (qb ← constructor condition; qb ← add p f v qb; build qb) h
  = (qb ← constructor condition; qb ← adds [(p, f, v)] qb; build qb) h.
Proof. same_calls. Qed.

Lemma two_adds_as_adds condition p1 f1 v1 p2 f2 v2 h :
  (qb ← constructor condition; qb ← add p1 f1 v1 qb; qb ← add p2 f2 v2 qb;
   build qb) h
  = (qb ← constructor condition; qb ← adds [(p1, f1, v1); (p2, f2, v2)] qb;
     build qb) h.
Proof. same_calls. Qed.

Lemma two_adds_run condition p1 f1 v1 p2 f2 v2 h :
  two_adds p1 f1 v1 p2 f2 v2 (mk (length h)) (h ++ [ObjQuery (initial condition)])
  = Returns tt
      (h ++ [ObjQuery (with_Queries (length h + 2) (initial condition));
             ObjQuery (leaf p1 f1 v1);
             ObjArray [length h + 1; length h + 3];
             ObjQuery (leaf p2 f2 v2)]).
Proof.
  pose proof (new_add_run condition p1 f1 v1 h) as Hadd.
  rewrite bind_run, constructor_run in Hadd.
  unfold two_adds. rewrite bind_run, Hadd, bind_run.
  set (root := with_Queries (length h + 2) (initial condition)).
  rewrite (add_next p2 f2 v2 (mk (length h)) _ root (length h + 2) [length h + 1]).
  - rewrite ret_run. f_equal. rewrite length_app. cbn [length].
    rewrite (insert_app_r h _ 2). cbn. by rewrite <- app_assoc.
  - cbn [currentQuery].
    by rewrite <- (Nat.add_0_r (length h)) at 1; rewrite lookup_fresh.
  - done.
  - by rewrite lookup_fresh.
Qed.
End written_out.

(** * The properties of the specification *)

Section fresh_builder_claims.
Import QueryBuilder.

(** With [Operator.Or] or [Operator.Xor] the constructor records the
    operator: the root is [{Operator: op, Not: false}] and has no [Queries]. *)
Lemma constructor_truthy_keeps_Operator op h n :
  op ≠ Operator.And →
  observe (S n) (qb ← constructor (Some op); build qb) h
  = Some (QNode (Some op) false None None None None).
Proof. intros Hop. rewrite observe_new. by destruct op. Qed.

(** C1, at the input where the code departs from it: [new
    QueryBuilder(Operator.And).build()] yields a node with [Not] false and no
    [Queries], but also no [Operator], because [Operator.And] is the number
    zero and fails the test [if (condition)]. *)
Theorem constructor_And_drops_Operator (h : heap) (n : nat) :
  observe (S n) (qb ← constructor (Some Operator.And); build qb) h
  = Some (QNode None false None None None None).
Proof.
  unfold observe, constructor. cbv zeta.
  change (ToBoolean (Operator.value (default Operator.And (Some Operator.And))))
    with false.
  cbv iota. rewrite bind_run, bind_run. unfold alloc.
  rewrite bind_run, !ret_run, build_run. cbn [currentQuery].
  by rewrite (snapshot_leaf _ _ _ _ (lookup_alloc _ _)).
Qed.

(** C2: the constructor called without an argument, followed by [build()],
    yields a root whose [Not] is false and which has no [Operator] key (and
    no other key), in every store. *)
Theorem default_constructor_omits_Operator (h : heap) (n : nat) :
  observe (S n) (qb ← constructor None; build qb) h
  = Some (QNode None false None None None None).
Proof.
  unfold observe.
  rewrite bind_run, constructor_run, build_run. cbn [currentQuery].
  rewrite (snapshot_leaf _ _ _ _ (lookup_alloc _ _)) by done.
  reflexivity.
Qed.

(** C3, as the code runs it: on a default-constructed builder the chain
    [add("age", GreaterThan, 18).add("country", Equal, "US").build()] yields
    the two leaves in order under a root with [Not] false, but the root has no
    [Operator] key, so the result differs from the tree with [operator: AND]. *)
Theorem age_country_scenario_has_no_Operator (h : heap) (n : nat) :
  let result :=
    observe (S (S n))
      (qb ← constructor None;
       qb ← add "age" Filter.GreaterThan (JsNumber 18) qb;
       qb ← add "country" Filter.Equal (JsString "US") qb;
       build qb) h in
  let leaves :=
    [leafTree "age" Filter.GreaterThan (JsNumber 18);
     leafTree "country" Filter.Equal (JsString "US")] in
  result = Some (QNode None false None None None (Some leaves))
  ∧ result ≠ Some (QNode (Some Operator.And) false None None None (Some leaves)).
Proof.
  cbn zeta.
  rewrite (observe_ext _ _ _ _ (two_adds_as_adds _ _ _ _ _ _ _ _)).
  rewrite observe_new_adds. by split.
Qed.

(** C4: one [add(p, f, v)] on a fresh builder gives a root whose children are
    exactly the one leaf [{Property: p, Filter: f, Value: v, Not: false}]; the
    root had no [Queries] key before the call, and the array it refers to
    afterwards was allocated by that call. *)
Theorem add_once_on_fresh_builder (condition : option Operator.t)
    (p : string) (f : Filter.t) (v : JsValue) (h : heap) (n : nat) :
  let this := mk (length h) in
  let h1 := h ++ [ObjQuery (initial condition)] in
  let h2 := h ++ [ObjQuery (with_Queries (length h + 2) (initial condition));
                  ObjQuery (leaf p f v); ObjArray [length h + 1]] in
  observe (S (S n)) (qb ← constructor condition; qb ← add p f v qb; build qb) h
  = Some (QNode (initial_Operator condition) false None None None
            (Some [QNode None false (Some p) (Some f) (Some v) None]))
  ∧ constructor condition h = Returns this h1
  ∧ Queries (initial condition) = None
  ∧ add p f v this h1 = Returns this h2
  ∧ h1 !! (length h + 2) = None
  ∧ h2 !! (length h + 2) = Some (ObjArray [length h + 1])
  ∧ h2 !! (length h + 1) = Some (ObjQuery (leaf p f v)).
Proof.
  cbn zeta.
  pose proof (new_add_run condition p f v h) as Hadd.
  rewrite bind_run, constructor_run in Hadd.
  repeat split.
  - rewrite (observe_ext _ _ _ _ (one_add_as_adds _ _ _ _ _)).
    by rewrite observe_new_adds.
  - apply constructor_run.
  - exact Hadd.
  - apply lookup_ge_None. rewrite length_app. cbn. lia.
  - by rewrite lookup_fresh.
  - by rewrite lookup_fresh.
Qed.

(** C7: [build()] returns in every store, whatever the node holds, and leaves
    the store as it was; two calls in a row return references behind which
    the same tree is read. *)
Theorem build_twice_same_content (this : QueryBuilder.t) (h : heap) :
  build this h = Returns (currentQuery this) h
  ∧ ∃ l1 l2,
      (l1 ← build this; l2 ← build this; mret (l1, l2)) h = Returns (l1, l2) h
      ∧ ∀ fuel, snapshot fuel h l1 = snapshot fuel h l2.
Proof.
  split; [done|]. by exists (currentQuery this), (currentQuery this).
Qed.
End fresh_builder_claims.

Section growing_claims.
Import QueryBuilder.

(** C5: [N] calls of [add] on a fresh builder give a root whose children are
    the [N] leaves in call order (no [Queries] key at all when [N] is zero);
    on any ready builder they append [N] references, the i-th to the leaf of
    the i-th call; [group] appends the one reference of its sub-builder's
    node after the callback has returned; and no caller code, whatever
    methods and nested callbacks it goes through, removes or reorders what an
    array holds. *)
Theorem children_append_only_in_call_order :
  (∀ condition calls (h : heap) n,
     observe (S (S n))
       (qb ← constructor condition; qb ← adds calls qb; build qb) h
     = Some (QNode (initial_Operator condition) false None None None
               (match calls with [] => None | _ => Some (call_tree <$> calls) end)))
  ∧ (∀ calls this (h : heap),
       ready h this = true →
       ∃ h' locs,
         adds calls this h = Returns this h'
         ∧ children_of h' (currentQuery this)
           = children_of h (currentQuery this) ++ locs
         ∧ length locs = length calls
         ∧ ∀ i c, calls !! i = Some c →
                  ∃ l, locs !! i = Some l ∧ h' !! l = Some (ObjQuery (call_leaf c)))
  ∧ (∀ groupAction condition this (h h2 : heap),
       groupAction (mk (length h)) (h ++ [ObjQuery (initial condition)])
       = Returns tt h2 →
       ready h2 this = true →
       ∃ h', group groupAction condition this h = Returns this h'
             ∧ children_of h' (currentQuery this)
               = children_of h2 (currentQuery this) ++ [length h])
  ∧ (∀ A (m : JS A) (h : heap), client A m → grows h (final (m h))).
Proof.
  split; [|split; [|split]].
  - apply observe_new_adds.
  - intros calls this h Hr.
    destruct (adds_ready calls this h Hr) as (h' & locs & Hrun & Hkids & Hleaves & _).
    exists h', locs. repeat split; [done|done|by eapply Forall2_length|].
    intros i c Hc.
    destruct (Forall2_lookup_r _ _ _ _ _ Hleaves Hc) as (l & Hl & Hleaf). eauto.
  - intros groupAction condition this h h2 Hcb Hr.
    destruct (group_ready _ _ _ _ _ Hcb Hr) as (h' & Hrun & Hkids & _). eauto.
  - intros A m h Hm. by apply client_grows.
Qed.

(** C6: [group(cb, Operator.Or)] with a callback that adds two conditions
    appends exactly one reference to the children of a ready builder, and the
    node behind it has [Operator] [Or], [Not] false and the two leaves as
    children, in the order the callback added them. *)
Theorem group_Or_of_two_adds p1 f1 v1 p2 f2 v2 this (h : heap) :
  ready h this = true →
  ∃ h', group (two_adds p1 f1 v1 p2 f2 v2) (Some Operator.Or) this h
        = Returns this h'
        ∧ children_of h' (currentQuery this)
          = children_of h (currentQuery this) ++ [length h]
        ∧ ∀ n, snapshot (S (S n)) h' (length h)
               = Some (QNode (Some Operator.Or) false None None None
                         (Some [leafTree p1 f1 v1; leafTree p2 f2 v2])).
Proof.
  intros Hr.
  pose proof (two_adds_run (Some Operator.Or) p1 f1 v1 p2 f2 v2 h) as Hcb.
  set (root := with_Queries (length h + 2) (initial (Some Operator.Or))) in Hcb.
  set (news := [ObjQuery root; ObjQuery (leaf p1 f1 v1);
                ObjArray [length h + 1; length h + 3];
                ObjQuery (leaf p2 f2 v2)]) in Hcb.
  destruct (ready_alloc h news this Hr) as [Hr2 Hkids2].
  destruct (group_ready _ _ _ _ _ Hcb Hr2) as (h' & Hrun & Hkids & _ & _ & _ & Hobjs).
  exists h'. split; [done|]. split; [by rewrite Hkids, Hkids2|].
  pose proof (proj1 (ready_spec _ _) Hr) as (q & Hl & Harr).
  pose proof (lookup_lt_Some _ _ _ Hl) as Hlt.
  assert (Hat : ∀ i o, news !! i = Some o → h' !! (length h + i) = Some o).
  { intros i o Hi. apply Hobjs; [lia|by rewrite lookup_fresh|].
    intros q' Hq' Hsome.
    rewrite lookup_app_l in Hq' by done.
    assert (q' = q) as -> by congruence.
    destruct (Harr _ Hsome) as [elems Ha%lookup_lt_Some]. lia. }
  intros n.
  rewrite (snapshot_node _ h' _ root (length h + 2) [length h + 1; length h + 3]
             [leafTree p1 f1 v1; leafTree p2 f2 v2]); [done| | | |].
  - rewrite <- (Nat.add_0_r (length h)). by apply Hat.
  - done.
  - by apply Hat.
  - apply (snapshot_leaves n h' _ [(p1, f1, v1); (p2, f2, v2)]).
    repeat constructor; by apply Hat.
Qed.
End growing_claims.

Section failure_claims.
Import QueryBuilder.

(** C8: an error raised by the callback of [group] reaches the caller of
    [group] as it was raised, with the store exactly as the callback left it;
    the constructor and [build] always return; [and], [or], [xor] and [add]
    return on a ready builder; and [group] itself, on a ready builder in a
    well-formed store with a callback that uses only the builder interface,
    either returns or fails with the very error and store of its callback. *)
Theorem only_callback_failure_propagates :
  (∀ groupAction condition this (h : heap) e h',
     groupAction (mk (length h)) (h ++ [ObjQuery (initial condition)])
     = Throws e h' →
     group groupAction condition this h = Throws e h')
  ∧ (∀ condition (h : heap), ∃ qb h', constructor condition h = Returns qb h')
  ∧ (∀ this (h : heap), build this h = Returns (currentQuery this) h)
  ∧ (∀ this (h : heap),
       ready h this = true →
       (∃ h', and this h = Returns this h')
       ∧ (∃ h', or this h = Returns this h')
       ∧ (∃ h', xor this h = Returns this h')
       ∧ ∀ p f v, ∃ h', add p f v this h = Returns this h')
  ∧ (∀ groupAction condition this (h : heap),
       ready h this = true → well_formed h = true →
       (∀ g, client unit (groupAction g)) →
       (∃ h', group groupAction condition this h = Returns this h')
       ∨ (∃ e h',
            groupAction (mk (length h)) (h ++ [ObjQuery (initial condition)])
            = Throws e h'
            ∧ group groupAction condition this h = Throws e h')).
Proof.
  split; [|split; [|split; [|split]]].
  - intros. by apply group_throws.
  - intros condition h. rewrite constructor_run. eauto.
  - done.
  - intros this h Hr.
    pose proof (proj1 (ready_spec _ _) Hr) as (q & Hl & _).
    assert (Hop : ∀ op, ∃ h',
               (assign_Operator (currentQuery this) op;; mret this) h
               = Returns this h').
    { intros op. rewrite bind_run, (assign_Operator_run _ _ _ _ Hl). eauto. }
    split; [apply Hop|]. split; [apply Hop|]. split; [apply Hop|].
    intros p f v.
    destruct (add_ready p f v this h Hr) as (h' & Hrun & _). eauto.
  - intros groupAction condition this h Hr Hwf Hcb.
    set (g := mk (length h)). set (h1 := h ++ [ObjQuery (initial condition)]).
    destruct (groupAction g h1) as [[] h2|e h2] eqn:Hrun.
    + left.
      assert (Hwf1 : well_formed h1 = true).
      { pose proof (client_well_formed _ _ h (client_new condition) Hwf) as H1.
        by rewrite constructor_run in H1. }
      pose proof (client_well_formed _ _ h1 (Hcb g) Hwf1) as Hwf2.
      pose proof (client_grows _ _ h1 (Hcb g)) as Hgrows.
      rewrite Hrun in Hwf2, Hgrows. cbn [final] in Hwf2, Hgrows.
      destruct (ready_alloc h [ObjQuery (initial condition)] this Hr) as [Hr1 _].
      pose proof (ready_later _ _ _ Hr1 Hgrows Hwf2) as Hr2.
      destruct (group_ready _ _ _ _ _ Hrun Hr2) as (h' & Hgroup & _). eauto.
    + right. exists e, h2. split; [done|]. by apply group_throws.
Qed.
End failure_claims.

Section negate_claims.
Import QueryBuilder.

(** C9: whatever caller code does through the builder interface (roots,
    leaves added by [add], sub-roots made by [group], nested to any depth),
    every node in the store keeps [Not] equal to [false], and so does every
    node of every tree read from the store. *)
Theorem negate_false_on_every_node (A : Type) (m : JS A) (h : heap) :
  client A m →
  all_Not_false h = true →
  all_Not_false (final (m h)) = true
  ∧ ∀ fuel l t, snapshot fuel (final (m h)) l = Some t →
                all_negate_false t = true.
Proof.
  intros Hm Hall.
  pose proof (client_Not_false A m h Hm Hall) as Hall'.
  split; [done|]. intros fuel l t. by apply snapshot_negate.
Qed.

(** C10: when the callback throws, [group] has done nothing to the builder
    it was called on: the outcome is that of making the sub-builder and
    running the callback, whatever builder [group] was called on.  If the
    callback itself wrote to no object that existed before the call, the node
    of the outer builder, the references it holds and the tree read from it
    are what they were before the call; a callback written as calls on the
    builder it is given is such a callback. *)
Theorem group_atomic_when_callback_throws groupAction condition this
    (h : heap) e (h' : heap) :
  groupAction (mk (length h)) (h ++ [ObjQuery (initial condition)])
  = Throws e h' →
  (group groupAction condition this h = Throws e h'
   ∧ (g ← constructor condition; groupAction g) h = Throws e h')
  ∧ (h `prefix_of` h' →
     ready h this = true →
     (∀ l, l < length h → h' !! l = h !! l)
     ∧ h' !! currentQuery this = h !! currentQuery this
     ∧ children_of h' (currentQuery this) = children_of h (currentQuery this)
     ∧ (closed h = true →
        ∀ fuel, snapshot fuel h' (currentQuery this)
                = snapshot fuel h (currentQuery this)))
  ∧ (∀ body, groupAction = run_calls body → h `prefix_of` h').
Proof.
  intros Hcb. split; [|split].
  - split; [by apply group_throws|]. by rewrite bind_run, constructor_run.
  - intros [news ->] Hr.
    pose proof (proj1 (ready_spec _ _) Hr) as (q & Hl & _).
    pose proof (lookup_lt_Some _ _ _ Hl) as Hlt.
    split; [intros l Hlen; by apply lookup_app_l|].
    split; [by apply lookup_app_l|].
    split; [by apply ready_alloc|].
    intros Hc fuel. by apply snapshot_prefix.
  - intros body ->.
    pose proof (chain_callback_frame body condition h) as Hframe.
    by rewrite Hcb in Hframe.
Qed.
End negate_claims.

(** ** The properties at concrete inputs *)

Section instances.
Import QueryBuilder.

Lemma client_failing_callback g : client unit (failing_callback g).
Proof. apply client_run_calls. Qed.

Lemma client_sample_session : client loc sample_session.
Proof.
  apply client_bind; [apply client_new|intros qb].
  apply client_bind; [apply client_add|intros qb1].
  apply client_bind; [|intros qb2; apply client_build].
  apply client_group. intros g.
  apply client_bind; [apply client_add|intros g1].
  apply client_bind; [|intros _; apply client_ret].
  apply client_group. intros k.
  apply client_bind; [apply client_xor|intros _; apply client_ret].
Qed.

Lemma children_append_only_witness :
  (∃ h' locs,
     adds [("a", Filter.Equal, JsNumber 1); ("b", Filter.In, JsNull)]
       sample_builder sample_store = Returns sample_builder h'
     ∧ children_of h' 0 = children_of sample_store 0 ++ locs
     ∧ length locs = 2
     ∧ ∀ i c, [("a", Filter.Equal, JsNumber 1); ("b", Filter.In, JsNull)] !! i
              = Some c →
              ∃ l, locs !! i = Some l ∧ h' !! l = Some (ObjQuery (call_leaf c)))
  ∧ (∃ h', group (two_adds "a" Filter.Equal (JsNumber 1) "b" Filter.In JsNull)
             None sample_builder sample_store = Returns sample_builder h'
           ∧ children_of h' 0 = [1])
  ∧ grows [] (final (sample_session [])).
Proof.
  destruct children_append_only_in_call_order as (_ & Hadds & Hgroup & Hgrows).
  split; [apply Hadds; reflexivity|].
  split; [|apply Hgrows, client_sample_session].
  apply (Hgroup _ None sample_builder sample_store
           (sample_store
            ++ [ObjQuery (with_Queries 3 (initial None));
                ObjQuery (leaf "a" Filter.Equal (JsNumber 1));
                ObjArray [2; 4];
                ObjQuery (leaf "b" Filter.In JsNull)])); reflexivity.
Defined.

Lemma group_Or_of_two_adds_witness :
  ∃ h', group (two_adds "a" Filter.Equal (JsNumber 1) "b" Filter.In JsNull)
          (Some Operator.Or) sample_builder sample_store
        = Returns sample_builder h'
        ∧ children_of h' 0 = children_of sample_store 0 ++ [1]
        ∧ ∀ n, snapshot (S (S n)) h' 1
               = Some (QNode (Some Operator.Or) false None None None
                         (Some [leafTree "a" Filter.Equal (JsNumber 1);
                                leafTree "b" Filter.In JsNull])).
Proof.
  apply (group_Or_of_two_adds "a" Filter.Equal (JsNumber 1) "b" Filter.In JsNull
           sample_builder sample_store).
  reflexivity.
Defined.

Lemma only_callback_failure_witness :
  group (reaching_callback sample_builder) None sample_builder sample_store
  = Throws (Thrown (JsString "boom"))
      [ObjQuery (with_Queries 3 (initial (Some Operator.Or)));
       ObjQuery (initial None);
       ObjQuery (leaf "x" Filter.Equal (JsNumber 1));
       ObjArray [2]]
  ∧ ((∃ h', and sample_builder sample_store = Returns sample_builder h')
     ∧ (∃ h', or sample_builder sample_store = Returns sample_builder h')
     ∧ (∃ h', xor sample_builder sample_store = Returns sample_builder h')
     ∧ ∀ p f v, ∃ h', add p f v sample_builder sample_store
                      = Returns sample_builder h')
  ∧ ((∃ h', group failing_callback None sample_builder sample_store
            = Returns sample_builder h')
     ∨ (∃ e h', failing_callback (mk 1) (sample_store ++ [ObjQuery (initial None)])
                = Throws e h'
                ∧ group failing_callback None sample_builder sample_store
                  = Throws e h')).
Proof.
  destruct only_callback_failure_propagates as (Hthrow & _ & _ & Hops & Hgroup).
  split; [apply Hthrow; reflexivity|].
  split; [apply Hops; reflexivity|].
  apply (Hgroup failing_callback None sample_builder sample_store);
    [reflexivity|reflexivity|apply client_failing_callback].
Defined.

Lemma negate_false_witness :
  all_Not_false (final (sample_session [])) = true
  ∧ ∀ fuel l t, snapshot fuel (final (sample_session [])) l = Some t →
                all_negate_false t = true.
Proof.
  apply (negate_false_on_every_node loc sample_session []);
    [apply client_sample_session|reflexivity].
Defined.

Lemma group_atomic_witness :
  let h' := sample_store
            ++ [ObjQuery (with_Queries 3 (initial None));
                ObjQuery (leaf "a" Filter.Equal (JsNumber 1));
                ObjArray [2]] in
  (group failing_callback None sample_builder sample_store
   = Throws (Thrown (JsString "boom")) h'
   ∧ (g ← constructor None; failing_callback g) sample_store
     = Throws (Thrown (JsString "boom")) h')
  ∧ (∀ l, l < length sample_store → h' !! l = sample_store !! l)
  ∧ h' !! 0 = sample_store !! 0
  ∧ children_of h' 0 = children_of sample_store 0
  ∧ ∀ fuel, snapshot fuel h' 0 = snapshot fuel sample_store 0.
Proof.
  cbn zeta.
  destruct (group_atomic_when_callback_throws failing_callback None
              sample_builder sample_store (Thrown (JsString "boom"))
              (sample_store
               ++ [ObjQuery (with_Queries 3 (initial None));
                   ObjQuery (leaf "a" Filter.Equal (JsNumber 1));
                   ObjArray [2]]) eq_refl) as (Hgroup & Hframe & Hchain).
  split; [exact Hgroup|].
  destruct (Hframe (Hchain _ eq_refl) eq_refl)
    as (Hold & Hnode & Hkids & Htree).
  split; [exact Hold|]. split; [exact Hnode|]. split; [exact Hkids|].
  exact (Htree eq_refl).
Defined.
End instances.

(** * Further properties of the builder *)

(** ** The operator methods *)

Section operator_methods.
Import QueryBuilder.
Implicit Types (h : heap) (this : QueryBuilder.t) (q : Query).

Lemma set_Operator_run op this h :
  set_Operator op this h
  = match h !! currentQuery this with
    | Some (ObjQuery q) =>
        Returns this (<[currentQuery this := ObjQuery (with_Operator op q)]> h)
    | _ => Throws TypeError h
    end.
Proof.
  assert (Hset : set_Operator op this
                 = (assign_Operator (currentQuery this) op;; mret this))
    by (by destruct op).
  rewrite Hset, bind_run.
  destruct (h !! currentQuery this) as [[q|elems]|] eqn:Hl.
  - by rewrite (assign_Operator_run _ _ _ _ Hl).
  - unfold assign_Operator, getQuery. by rewrite bind_run, Hl.
  - unfold assign_Operator, getQuery. by rewrite bind_run, Hl.
Qed.

(** X1: [and()], [or()] and [xor()] store their operator in the node of the
    builder and touch nothing else (they fail only when the builder has no
    node); called one after the other, the last one decides: the store is the
    one the last call alone would leave. *)
Theorem operator_methods_overwrite (op1 op2 : Operator.t)
    (this : QueryBuilder.t) (h : heap) :
  set_Operator op2 this h
  = match h !! currentQuery this with
    | Some (ObjQuery q) =>
        Returns this (<[currentQuery this := ObjQuery (with_Operator op2 q)]> h)
    | _ => Throws TypeError h
    end
  ∧ (b ← set_Operator op1 this; set_Operator op2 b) h = set_Operator op2 this h.
Proof.
  split; [apply set_Operator_run|].
  rewrite bind_run, !set_Operator_run.
  destruct (h !! currentQuery this) as [[q|elems]|] eqn:Hl; try done.
  pose proof (lookup_lt_Some _ _ _ Hl) as Hlt.
  rewrite set_Operator_run, list_lookup_insert_eq by done.
  by rewrite list_insert_insert_eq.
Qed.

(** X2: on a ready builder an operator method and [add] can be called in
    either order: the two orders leave the same store. *)
Theorem operator_method_commutes_with_add (op : Operator.t) (p : string)
    (f : Filter.t) (v : JsValue) (this : QueryBuilder.t) (h : heap) :
  ready h this = true →
  (b ← set_Operator op this; add p f v b) h
  = (b ← add p f v this; set_Operator op b) h.
Proof.
  intros (q & Hl & Harr)%ready_spec.
  pose proof (lookup_lt_Some _ _ _ Hl) as Hlt.
  rewrite !bind_run, set_Operator_run, Hl.
  set (cq := currentQuery this) in *.
  assert (Hl1 : <[cq:=ObjQuery (with_Operator op q)]> h !! cq
                = Some (ObjQuery (with_Operator op q)))
    by (by apply list_lookup_insert_eq).
  destruct (Queries q) as [a|] eqn:Hq.
  - destruct (Harr a eq_refl) as [elems Ha].
    pose proof (lookup_lt_Some _ _ _ Ha) as Hlta.
    assert (a ≠ cq) as Hne by (intros ->; congruence).
    rewrite (add_next p f v this _ _ a elems Hl1 Hq)
      by (by rewrite list_lookup_insert_ne).
    rewrite (add_next p f v this _ _ a elems Hl Hq Ha).
    rewrite set_Operator_run. fold cq.
    rewrite lookup_app_l by (by rewrite length_insert).
    rewrite list_lookup_insert_ne, Hl by done.
    rewrite length_insert. f_equal.
    rewrite insert_app_l by (by rewrite length_insert).
    f_equal. by apply list_insert_insert_ne.
  - rewrite (add_first p f v this _ _ Hl1 Hq).
    rewrite (add_first p f v this _ _ Hl Hq).
    rewrite set_Operator_run. fold cq.
    rewrite lookup_app_l by (by rewrite length_insert).
    rewrite list_lookup_insert_eq by done.
    rewrite length_insert, list_insert_insert_eq. f_equal.
    rewrite insert_app_l by (by rewrite length_insert).
    by rewrite list_insert_insert_eq.
Qed.
End operator_methods.

(** ** The constructor, [build] and [group] again *)

Section more_of_the_builder.
Import QueryBuilder.
Implicit Types (h : heap) (this : QueryBuilder.t) (q : Query).

(** X3: the constructor keeps its operator exactly when it is [Or] or [Xor]:
    with [And], or without an argument, the root read after [build()] has no
    [Operator] key.  In all cases [Not] is false and no other key is set. *)
Theorem constructor_keeps_only_Or_and_Xor (condition : option Operator.t)
    (h : heap) (n : nat) :
  observe (S n) (qb ← constructor condition; build qb) h
  = Some (QNode (match condition with
                 | Some Operator.Or => Some Operator.Or
                 | Some Operator.Xor => Some Operator.Xor
                 | Some Operator.And | None => None
                 end) false None None None None).
Proof.
  unfold observe. rewrite bind_run, constructor_run, build_run.
  cbn [currentQuery].
  rewrite (snapshot_leaf _ _ _ _ (lookup_alloc _ _)) by done.
  by destruct condition as [[]|].
Qed.

(** X4: the reference [build()] returns is the live node, not a copy: an
    [add] made after [build()] shows behind the reference obtained before. *)
Theorem build_returns_live_node (p : string) (f : Filter.t) (v : JsValue)
    (this : QueryBuilder.t) (h : heap) :
  ready h this = true →
  ∃ l h',
    (l ← build this; _ ← add p f v this; mret l) h = Returns l h'
    ∧ l = currentQuery this
    ∧ children_of h' l = children_of h l ++ [length h]
    ∧ h' !! length h = Some (ObjQuery (leaf p f v)).
Proof.
  intros Hr.
  destruct (add_ready p f v this h Hr) as (h' & Hrun & Hkids & Hleaf & _).
  exists (currentQuery this), h'.
  by rewrite bind_run, build_run, bind_run, Hrun.
Qed.

End more_of_the_builder.

(** ** Chains and the trees they build *)

Section representation.
Import QueryBuilder.
Implicit Types (h : heap) (l a x lo hi : nat) (q : Query) (g : QueryBuilder.t)
  (t c : QueryTree).

Lemma snapshot_mono f f' h l t :
  f ≤ f' → snapshot f h l = Some t → snapshot f' h l = Some t.
Proof.
  revert f' l t. induction f as [|f IH]; intros f' l t Hle; [done|].
  destruct f' as [|f']; [lia|].
  cbn [snapshot]. destruct (h !! l) as [[q|?]|]; try done.
  destruct (Queries q) as [a|]; [|done].
  destruct (h !! a) as [[?|elems]|]; try done.
  destruct (mapM (snapshot f h) elems) as [ts|] eqn:Hts; [|done].
  assert (Hts' : mapM (snapshot f' h) elems = Some ts).
  { apply mapM_Some. apply mapM_Some in Hts.
    eapply Forall2_impl; [exact Hts|]. intros x y Hxy. apply IH; [lia|done]. }
  by rewrite Hts'.
Qed.

Lemma refs_within_widen lo hi lo' hi' o :
  lo' ≤ lo → hi ≤ hi' → refs_within lo hi o → refs_within lo' hi' o.
Proof.
  intros Hlo Hhi. destruct o as [q|elems]; cbn.
  - intros Hq a Ha. destruct (Hq a Ha). lia.
  - intros Hall. eapply Forall_impl; [exact Hall|]. intros x []. lia.
Qed.

Lemma block_agree lo hi h h' :
  block lo hi h → (∀ l, lo ≤ l → l < hi → h' !! l = h !! l) → block lo hi h'.
Proof. intros Hb Hsame l o Hlo Hhi Ho. rewrite Hsame in Ho by done. eauto. Qed.

(** The tree read at a location of a block depends on that block only. *)
Lemma snapshot_block lo hi h h' :
  block lo hi h → (∀ l, lo ≤ l → l < hi → h' !! l = h !! l) →
  ∀ fuel l, lo ≤ l → l < hi → snapshot fuel h' l = snapshot fuel h l.
Proof.
  intros Hb Hsame. induction fuel as [|fuel IH]; intros l Hlo Hhi; [done|].
  cbn [snapshot]. rewrite Hsame by done.
  destruct (h !! l) as [[q|?]|] eqn:Hl; try done.
  destruct (Queries q) as [a|] eqn:Hq; [|done].
  destruct (Hb _ _ Hlo Hhi Hl a Hq) as [Halo Hahi].
  rewrite Hsame by done.
  destruct (h !! a) as [[?|elems]|] eqn:Ha; try done.
  rewrite (mapM_agree (snapshot fuel h') (snapshot fuel h)); [done|].
  eapply Forall_impl; [exact (Hb _ _ Halo Hahi Ha)|].
  intros x [Hxlo Hxhi]. by apply IH.
Qed.

Lemma child_at_stable h h' cq a a' x c :
  child_at h cq a x c →
  (∀ l, cq < l → l < length h → l ≠ a → h' !! l = h !! l) →
  length h ≤ length h' →
  (a' = a ∨ length h ≤ a') →
  child_at h' cq a' x c.
Proof.
  intros (hi & Hcq & Hx & Hhi & Hb & Hna & fuel & Hsnap) Hsame Hlen Ha'.
  assert (Hin : ∀ l, x ≤ l → l < hi → h' !! l = h !! l).
  { intros l Hl1 Hl2. apply Hsame; lia. }
  exists hi. repeat split; try lia.
  - by apply (block_agree _ _ h).
  - exists fuel. by rewrite (snapshot_block x hi h h') by (done || lia).
Qed.

Lemma children_common_fuel h cq a elems ts :
  Forall2 (child_at h cq a) elems ts →
  ∃ fuel, Forall2 (λ x c, snapshot fuel h x = Some c) elems ts.
Proof.
  induction 1 as [|x c elems ts (hi & _ & _ & _ & _ & _ & f & Hf) _ [F HF]].
  - by exists 0.
  - exists (max f F). constructor.
    + apply (snapshot_mono f); [lia|done].
    + eapply Forall2_impl; [exact HF|]. intros y d Hyd.
      apply (snapshot_mono F); [lia|done].
Qed.

(** A represented tree is read by [snapshot], with any fuel from some point
    on. *)
Lemma represents_snapshot h g t :
  represents h g t →
  ∃ fuel0, ∀ fuel, fuel0 ≤ fuel → snapshot fuel h (currentQuery g) = Some t.
Proof.
  intros (q & kids & Hl & -> & _ & Hkids).
  destruct (Queries q) as [a|] eqn:Hq.
  - destruct Hkids as (_ & elems & ts & Ha & -> & Hch).
    destruct (children_common_fuel _ _ _ _ _ Hch) as [F HF].
    exists (S F). intros fuel Hfuel. destruct fuel as [|fuel]; [lia|].
    apply (snapshot_node _ _ _ q a elems ts); try done.
    apply mapM_Some. eapply Forall2_impl; [exact HF|].
    intros x c Hxc. apply (snapshot_mono F); [lia|done].
  - subst kids. exists 1. intros fuel Hfuel. destruct fuel as [|fuel]; [lia|].
    by apply snapshot_leaf.
Qed.
Lemma represents_fresh h condition :
  represents (h ++ [ObjQuery (initial condition)]) (mk (length h))
    (fresh_tree condition).
Proof.
  exists (initial condition), None. cbn [currentQuery].
  split; [apply lookup_alloc|]. split; [done|]. split; [|done].
  intros l o Hlo Hhi Ho. rewrite length_app in Hhi. cbn in Hhi.
  assert (l = length h) as -> by lia.
  rewrite lookup_alloc in Ho. injection Ho as <-. by intros a.
Qed.

Lemma represents_set_Operator op h g t :
  represents h g t →
  ∃ h', set_Operator op g h = Returns g h'
        ∧ represents h' g (tree_with_operator op t)
        ∧ (∀ l, l < currentQuery g → h' !! l = h !! l)
        ∧ length h ≤ length h'.
Proof.
  intros (q & kids & Hl & -> & Hb & Hkids).
  pose proof (lookup_lt_Some _ _ _ Hl) as Hlt.
  set (cq := currentQuery g) in *.
  set (h' := <[cq := ObjQuery (with_Operator op q)]> h).
  assert (Hother : ∀ l, l ≠ cq → h' !! l = h !! l)
    by (intros l Hne; by apply list_lookup_insert_ne).
  assert (Hnode : h' !! cq = Some (ObjQuery (with_Operator op q)))
    by (by apply list_lookup_insert_eq).
  assert (Hlen : length h' = length h) by apply length_insert.
  exists h'. split; [by rewrite set_Operator_run; fold cq; rewrite Hl|].
  split; [|split; [intros l Hl'; apply Hother; lia|lia]].
  exists (with_Operator op q), kids. fold cq.
  split; [done|]. split; [done|]. split.
  - rewrite Hlen. intros l o Hlo Hhi Ho.
    destruct (decide (l = cq)) as [->|Hne].
    + rewrite Hnode in Ho. injection Ho as <-.
      exact (Hb cq _ Hlo Hhi Hl).
    + rewrite Hother in Ho by done. eauto.
  - cbn [Queries with_Operator]. destruct (Queries q) as [a|]; [|done].
    destruct Hkids as (Hcqa & elems & ts & Ha & -> & Hch).
    split; [done|]. exists elems, ts.
    split; [rewrite Hother; [done|lia]|]. split; [done|].
    eapply Forall2_impl; [exact Hch|]. intros x c Hxc.
    apply (child_at_stable h h' cq a a); [done| |lia|by left].
    intros l Hl1 _ _. apply Hother. lia.
Qed.

(** Objects allocated after a represented tree, and referring only to each
    other, leave it represented. *)
Lemma represents_extend h h2 g t :
  represents h g t →
  (∀ l, l < length h → h2 !! l = h !! l) →
  length h ≤ length h2 →
  block (length h) (length h2) h2 →
  represents h2 g t.
Proof.
  intros (q & kids & Hl & -> & Hb & Hkids) Hsame Hlen Hb2.
  pose proof (lookup_lt_Some _ _ _ Hl) as Hlt.
  set (cq := currentQuery g) in *.
  exists q, kids. fold cq.
  split; [by rewrite Hsame|]. split; [done|]. split.
  - intros l o Hlo Hhi Ho. destruct (decide (l < length h)) as [Hold|Hnew].
    + rewrite Hsame in Ho by done.
      apply (refs_within_widen cq (length h)); [lia|lia|]. eauto.
    + apply (refs_within_widen (length h) (length h2)); [lia|lia|].
      apply (Hb2 l); [lia|done|done].
  - destruct (Queries q) as [a|]; [|done].
    destruct Hkids as (Hcqa & elems & ts & Ha & -> & Hch).
    pose proof (lookup_lt_Some _ _ _ Ha) as Hlta.
    split; [done|]. exists elems, ts.
    split; [by rewrite Hsame|]. split; [done|].
    eapply Forall2_impl; [exact Hch|]. intros x c Hxc.
    apply (child_at_stable h h2 cq a a); [done| |lia|by left].
    intros l _ Hl2 _. by apply Hsame.
Qed.
(** Appending the reference to a finished block that starts where the
    represented store ended. *)
Lemma represents_append {A} (r : A) h hc g t child :
  represents h g t →
  (∀ l, l < length h → hc !! l = h !! l) →
  length h < length hc →
  block (length h) (length hc) hc →
  (∃ fuel, snapshot fuel hc (length h) = Some child) →
  ∃ h', (ensure_Queries (currentQuery g);;
         push_Queries (currentQuery g) (length h);; mret r) hc = Returns r h'
        ∧ represents h' g (tree_with_child child t)
        ∧ (∀ l, l < currentQuery g → h' !! l = hc !! l)
        ∧ length hc ≤ length h'.
Proof.
  intros Hrep Hsame Hlen Hbc [fuel Hchild].
  assert (Hrepc : represents hc g t)
    by (apply (represents_extend h); [done|done|lia|done]).
  destruct Hrep as (q0 & kids0 & Hl0 & _ & _ & Hkids0).
  destruct Hrepc as (q & kids & Hl & -> & Hb & Hkids).
  pose proof (lookup_lt_Some _ _ _ Hl0) as Hlt.
  set (cq := currentQuery g) in *. set (x := length h) in *.
  assert (q0 = q) as -> by (rewrite Hsame in Hl by done; congruence).
  destruct (Queries q) as [a|] eqn:Hq.
  - destruct Hkids0 as (_ & elems0 & _ & Ha0%lookup_lt_Some & _).
    destruct Hkids as (Hcqa & elems & ts & Ha & -> & Hch).
    set (h' := <[a := ObjArray (elems ++ [x])]> hc).
    assert (Hother : ∀ l, l ≠ a → h' !! l = hc !! l)
      by (intros l Hne; by apply list_lookup_insert_ne).
    assert (Harr : h' !! a = Some (ObjArray (elems ++ [x])))
      by (apply list_lookup_insert_eq; fold x in Ha0; lia).
    assert (Hlen' : length h' = length hc) by apply length_insert.
    exists h'. split; [by apply (append_next _ _ _ _ q a elems)|].
    split; [|split; [intros l Hl'; apply Hother; lia|lia]].
    exists q, (Some (ts ++ [child])). fold cq.
    split; [rewrite Hother; [done|lia]|]. split; [done|]. split.
    + rewrite Hlen'. intros l o Hlo Hhi Ho.
      destruct (decide (l = a)) as [->|Hne].
      * rewrite Harr in Ho. injection Ho as <-. cbn.
        apply Forall_app. split; [exact (Hb a _ Hlo Hhi Ha)|].
        constructor; [lia|done].
      * rewrite Hother in Ho by done. eauto.
    + rewrite Hq. split; [done|]. exists (elems ++ [x]), (ts ++ [child]).
      split; [done|]. split; [done|]. apply Forall2_app.
      * eapply Forall2_impl; [exact Hch|]. intros y c Hyc.
        apply (child_at_stable hc h' cq a a); [done| |lia|by left].
        intros l _ _ Hne. by apply Hother.
      * constructor; [|done]. exists (length hc).
        assert (Hin : ∀ l, x ≤ l → l < length hc → h' !! l = hc !! l)
          by (intros l Hl1 _; apply Hother; lia).
        repeat split; try lia.
        -- by apply (block_agree _ _ hc).
        -- exists fuel. by rewrite (snapshot_block x (length hc) hc h') by (done || lia).
  - subst kids.
    set (q' := with_Queries (length hc) q).
    set (h' := <[cq := ObjQuery q']> hc ++ [ObjArray [x]]).
    pose proof (lookup_lt_Some _ _ _ Hl) as Hltc.
    assert (Hnode : h' !! cq = Some (ObjQuery q')).
    { unfold h'. rewrite lookup_app_l by (by rewrite length_insert).
      by apply list_lookup_insert_eq. }
    assert (Harr : h' !! length hc = Some (ObjArray [x])).
    { unfold h'. rewrite <- (length_insert hc cq (ObjQuery q')).
      apply lookup_alloc. }
    assert (Hother : ∀ l, l ≠ cq → l < length hc → h' !! l = hc !! l).
    { intros l Hne Hl'. unfold h'.
      rewrite lookup_app_l by (by rewrite length_insert).
      by apply list_lookup_insert_ne. }
    assert (Hlen' : length h' = S (length hc)).
    { unfold h'. rewrite length_app, length_insert. cbn. lia. }
    exists h'. split; [by apply (append_first _ _ _ _ q)|].
    split; [|split; [intros l Hl'; apply Hother; lia|lia]].
    exists q', (Some [child]). fold cq.
    split; [done|]. split; [done|]. split.
    + rewrite Hlen'. intros l o Hlo Hhi Ho.
      destruct (decide (l = cq)) as [->|Hne];
        [|destruct (decide (l = length hc)) as [->|Hne']].
      * rewrite Hnode in Ho. injection Ho as <-. cbn. intros a [= <-]. lia.
      * rewrite Harr in Ho. injection Ho as <-. cbn.
        constructor; [lia|done].
      * rewrite Hother in Ho by (done || lia).
        apply (refs_within_widen cq (length hc)); [lia|lia|].
        apply (Hb l); [done|lia|done].
    + cbn [Queries q' with_Queries]. split; [lia|].
      exists [x], [child]. split; [done|]. split; [done|].
      constructor; [|done]. exists (length hc).
      assert (Hin : ∀ l, x ≤ l → l < length hc → h' !! l = hc !! l)
        by (intros l Hl1 Hl2; apply Hother; lia).
      repeat split; try lia.
      * by apply (block_agree _ _ hc).
      * exists fuel. by rewrite (snapshot_block x (length hc) hc h') by (done || lia).
Qed.
Lemma refines_set_Operator op h g t :
  represents h g t →
  refines (set_Operator op g;; mret tt) (tree_with_operator op t, None) h g.
Proof.
  intros Hrep.
  destruct (represents_set_Operator op h g t Hrep) as (h' & Hrun & Hrest).
  exists h'. split; [|done]. cbn. by rewrite bind_run, Hrun.
Qed.

Lemma run_calls_refines (body : list call) :
  Forall (λ c : call, ∀ g h t, represents h g t →
                        refines (run_call c g) (tree_after_call c t) h g) body →
  ∀ g h t, represents h g t →
           refines (run_calls body g) (tree_after_calls body t) h g.
Proof.
  induction 1 as [|c body Hc _ IH]; intros g h t Hrep.
  - exists h. by repeat split.
  - unfold run_calls, tree_after_calls. cbn [foldr thread].
    fold (run_calls body g). fold (tree_after_calls body).
    destruct (Hc g h t Hrep) as (h1 & Hend1 & Hrep1 & Hsame1 & Hlen1).
    destruct (tree_after_call c t) as [t1 [v|]]; cbn [fst snd] in *.
    + exists h1. repeat split; try done. cbn in *. by rewrite bind_run, Hend1.
    + destruct (IH g h1 t1 Hrep1) as (h2 & Hend2 & Hrep2 & Hsame2 & Hlen2).
      exists h2. split; [|split; [done|split; [|lia]]].
      * cbn in Hend1. unfold ends_as in *. rewrite bind_run, Hend1.
        exact Hend2.
      * intros l Hl. by rewrite Hsame2, Hsame1.
Qed.

Lemma run_call_refines (c : call) :
  ∀ g h t, represents h g t →
           refines (run_call c g) (tree_after_call c t) h g.
Proof.
  induction c as [| | |p f v|body condition IH|v] using call_nested_ind;
    intros g h t Hrep.
  - exact (refines_set_Operator Operator.And h g t Hrep).
  - exact (refines_set_Operator Operator.Or h g t Hrep).
  - exact (refines_set_Operator Operator.Xor h g t Hrep).
  - pose proof Hrep as (q0 & _ & Hl0%lookup_lt_Some & _).
    destruct (represents_append g h (h ++ [ObjQuery (leaf p f v)]) g t
                (leafTree p f v) Hrep) as (h' & Hrun & Hrep' & Hsame & Hlen).
    + intros l Hl. by apply lookup_app_l.
    + rewrite length_app. cbn. lia.
    + intros l o Hlo Hhi Ho. rewrite length_app in Hhi. cbn in Hhi.
      assert (l = length h) as -> by lia.
      rewrite lookup_alloc in Ho. injection Ho as <-. by intros a.
    + exists 1.
      by rewrite (snapshot_leaf 0 _ _ (leaf p f v) (lookup_alloc _ _)).
    + exists h'. split; [|split; [done|split]].
      * cbn. unfold add. rewrite bind_run, bind_run. unfold alloc.
        cbv beta iota.
        change (mkQuery None false (Some p) (Some f) (Some v) None)
          with (leaf p f v).
        by rewrite Hrun.
      * intros l Hl. rewrite Hsame by done. apply lookup_app_l. lia.
      * rewrite length_app in Hlen. lia.
  - pose proof Hrep as (q0 & _ & Hl0%lookup_lt_Some & _).
    set (k := mk (length h)).
    set (h1 := h ++ [ObjQuery (initial condition)]).
    destruct (run_calls_refines body IH k h1 (fresh_tree condition)
                (represents_fresh h condition))
      as (h2 & Hend & Hrepk & Hsamek & Hlenk).
    assert (Hlen1 : length h1 = S (length h))
      by (unfold h1; rewrite length_app; cbn; lia).
    assert (Hsame2 : ∀ l, l < length h → h2 !! l = h !! l).
    { intros l Hl. rewrite Hsamek by done. by apply lookup_app_l. }
    assert (Hblock : block (length h) (length h2) h2)
      by (by destruct Hrepk as (? & ? & _ & _ & Hb & _)).
    assert (Hrun : run_call (CallGroup body condition) g h
                   = match run_calls body k h1 with
                     | Returns _ h3 =>
                         (ensure_Queries (currentQuery g);;
                          push_Queries (currentQuery g) (length h);;
                          mret tt) h3
                     | Throws e h3 => Throws e h3
                     end).
    { cbn [run_call]. fold (run_calls body). rewrite bind_run, group_run.
      fold k h1. destruct (run_calls body k h1) as [[] h3|e h3]; [|done].
      same_calls. }
    cbn [tree_after_call].
    change (thread (λ (c' : call) s, tree_after_call c' s) body
              (fresh_tree condition))
      with (tree_after_calls body (fresh_tree condition)).
    destruct (tree_after_calls body (fresh_tree condition)) as [child [v|]];
      cbn [fst snd] in *.
    + exists h2. split; [|split; [|split]].
      * cbn in *. by rewrite Hrun, Hend.
      * apply (represents_extend h); [done|done|lia|done].
      * intros l Hl. apply Hsame2. lia.
      * lia.
    + destruct (represents_snapshot _ _ _ Hrepk) as [fuel Hfuel].
      destruct (represents_append tt h h2 g t child Hrep Hsame2)
        as (h' & Hrun' & Hrep' & Hsame' & Hlen'); [lia|done| |].
      { exists fuel. by apply Hfuel. }
      exists h'. split; [|split; [done|split]].
      * cbn in *. by rewrite Hrun, Hend.
      * intros l Hl. rewrite Hsame' by done. apply Hsame2. lia.
      * lia.
  - exists h. by repeat split.
Qed.
End representation.

(** ** What chains build *)

Section chains_build_trees.
Import QueryBuilder.
Implicit Types (h : heap) (this : QueryBuilder.t).

Lemma extends_prefix h h2 :
  (∀ l, l < length h → h2 !! l = h !! l) → length h ≤ length h2 →
  h2 = h ++ drop (length h) h2.
Proof.
  intros Hsame Hlen. rewrite <- (take_drop (length h) h2) at 1. f_equal.
  apply list_eq. intros i. destruct (decide (i < length h)) as [Hi|Hi].
  - rewrite lookup_take_lt by done. by apply Hsame.
  - rewrite lookup_take_ge by lia. symmetry. apply lookup_ge_None. lia.
Qed.

Lemma chain_from_fresh (body : list call) condition h :
  refines (run_calls body (mk (length h)))
    (tree_after_calls body (fresh_tree condition))
    (h ++ [ObjQuery (initial condition)]) (mk (length h)).
Proof.
  apply run_calls_refines; [|apply represents_fresh].
  apply Forall_forall. intros c _. apply run_call_refines.
Qed.

(** X5: a chain of calls on a new builder (operator methods, [add], groups
    nested to any depth, [throw]) leaves behind exactly the tree that the
    pure reading of the chain computes: it returns unless the reading stops
    at a [throw], in which case that value is thrown and the node still
    reads as the tree built up to there; it never fails otherwise, and it
    writes to no object that existed before. *)
Theorem chain_builds_its_reading (body : list call)
    (condition : option Operator.t) (h : heap) :
  let reading := tree_after_calls body (fresh_tree condition) in
  ∃ h', (qb ← constructor condition; run_calls body qb;; build qb) h
        = match snd reading with
          | None => Returns (length h) h'
          | Some v => Throws (Thrown v) h'
          end
        ∧ (∀ l, l < length h → h' !! l = h !! l)
        ∧ ∃ fuel0, ∀ fuel, fuel0 ≤ fuel →
                   snapshot fuel h' (length h) = Some (fst reading).
Proof.
  cbn zeta.
  destruct (chain_from_fresh body condition h)
    as (h' & Hend & Hrep & Hsame & Hlen).
  exists h'. split; [|split].
  - rewrite bind_run, constructor_run, bind_run. unfold ends_as in Hend.
    destruct (snd (tree_after_calls body (fresh_tree condition)));
      by rewrite Hend.
  - intros l Hl. rewrite Hsame by done. by apply lookup_app_l.
  - exact (represents_snapshot _ _ _ Hrep).
Qed.

(** X6: [group] on a ready builder with a callback written as a chain of
    calls.  When the reading of the chain runs to its end, one reference is
    appended and the node behind it reads as the tree of the reading, made
    from a node that has its [Operator] only for [Or] and [Xor].  When the
    reading stops at a [throw], that value is thrown, the builder is still
    ready and holds the references it held. *)
Theorem group_of_chain (body : list call) (condition : option Operator.t)
    (this : QueryBuilder.t) (h : heap) :
  ready h this = true →
  match tree_after_calls body (fresh_tree condition) with
  | (child, None) =>
      ∃ h', group (run_calls body) condition this h = Returns this h'
            ∧ children_of h' (currentQuery this)
              = children_of h (currentQuery this) ++ [length h]
            ∧ ∃ fuel0, ∀ fuel, fuel0 ≤ fuel →
                       snapshot fuel h' (length h) = Some child
  | (_, Some v) =>
      ∃ h', group (run_calls body) condition this h = Throws (Thrown v) h'
            ∧ ready h' this = true
            ∧ children_of h' (currentQuery this)
              = children_of h (currentQuery this)
  end.
Proof.
  intros Hr.
  pose proof (proj1 (ready_spec _ _) Hr) as (q & Hl & Harr).
  pose proof (lookup_lt_Some _ _ _ Hl) as Hlt.
  destruct (chain_from_fresh body condition h)
    as (h2 & Hend & Hrep & Hsame & Hlen).
  cbn [currentQuery] in Hsame.
  assert (Hlen2 : length h < length h2)
    by (rewrite length_app in Hlen; cbn in Hlen; lia).
  assert (Hsame2 : ∀ l, l < length h → h2 !! l = h !! l).
  { intros l Hl'. rewrite Hsame by done. by apply lookup_app_l. }
  pose proof (extends_prefix h h2 Hsame2 ltac:(lia)) as Hh2.
  destruct (ready_alloc h (drop (length h) h2) this Hr) as [Hr2 Hkids2].
  rewrite <- Hh2 in Hr2, Hkids2.
  destruct (tree_after_calls body (fresh_tree condition)) as [child [v|]];
    cbn [fst snd ends_as] in *.
  - exists h2. split; [by apply group_throws|done].
  - destruct (group_ready _ _ _ _ _ Hend Hr2)
      as (h' & Hrun & Hkids & _ & Hlen' & _ & Hobjs).
    exists h'. split; [done|]. split; [by rewrite Hkids, Hkids2|].
    destruct (represents_snapshot _ _ _ Hrep) as [fuel0 Hfuel].
    exists fuel0. intros fuel Hge. rewrite <- (Hfuel fuel Hge).
    cbn [currentQuery].
    apply (snapshot_block (length h) (length h2)); [| |done|done].
    + by destruct Hrep as (? & ? & _ & _ & Hb & _).
    + intros l Hlo Hhi.
      destruct (lookup_lt_is_Some_2 h2 l Hhi) as [o Ho].
      rewrite Ho. apply Hobjs; [lia|done|].
      intros q' Hq' Hsome. rewrite Hsame2 in Hq' by done.
      assert (q' = q) as -> by congruence.
      destruct (Harr _ Hsome) as [elems Ha%lookup_lt_Some]. lia.
Qed.

Lemma reading_nested_group d condition p f v t :
  tree_after_call (nested_group d condition p f v) t
  = (tree_with_child (nested_tree d condition p f v) t, None).
Proof.
  revert t. induction d as [|d IH]; intros t; [done|].
  cbn [nested_group tree_after_call thread]. by rewrite IH.
Qed.

(** X7: groups nest to any depth: [d] groups inside one another around one
    condition, called on a new builder, give a root with one child under
    which [d] nodes hang one below the other, the condition at the bottom. *)
Theorem groups_nest_to_any_depth (d : nat) (condition inner : option Operator.t)
    (p : string) (f : Filter.t) (v : JsValue) (h : heap) :
  ∃ h', (qb ← constructor condition;
         run_calls [nested_group d inner p f v] qb;; build qb) h
        = Returns (length h) h'
        ∧ ∃ fuel0, ∀ fuel, fuel0 ≤ fuel →
            snapshot fuel h' (length h)
            = Some (QNode (initial_Operator condition) false None None None
                      (Some [nested_tree d inner p f v])).
Proof.
  destruct (chain_from_fresh [nested_group d inner p f v] condition h)
    as (h' & Hend & Hrep & _ & _).
  unfold tree_after_calls in Hend, Hrep. cbn [thread] in Hend, Hrep.
  rewrite reading_nested_group in Hend, Hrep. cbn [fst snd ends_as] in *.
  exists h'. split.
  - by rewrite bind_run, constructor_run, bind_run, Hend.
  - exact (represents_snapshot _ _ _ Hrep).
Qed.
End chains_build_trees.

(** ** Builders stay usable *)

Section staying_ready.
Import QueryBuilder.
Implicit Types (h : heap) (this : QueryBuilder.t).

(** X8: in a well-formed store, whatever caller code does through the
    builder interface, the store stays well-formed and a ready builder stays
    ready: afterwards its operator methods and [add] still return, and the
    constructor still makes a ready builder. *)
Theorem builders_stay_ready (A : Type) (m : JS A) (this : QueryBuilder.t)
    (h : heap) :
  client A m →
  well_formed h = true →
  ready h this = true →
  let h' := final (m h) in
  well_formed h' = true
  ∧ ready h' this = true
  ∧ (∀ op, ∃ h'', set_Operator op this h' = Returns this h'')
  ∧ (∀ p f v, ∃ h'', add p f v this h' = Returns this h'')
  ∧ (∀ condition, ∃ qb h'',
       constructor condition h' = Returns qb h''
       ∧ ready h'' qb = true ∧ well_formed h'' = true).
Proof.
  intros Hm Hwf Hr. cbn zeta.
  pose proof (client_well_formed A m h Hm Hwf) as Hwf'.
  pose proof (ready_later _ _ _ Hr (client_grows A m h Hm) Hwf') as Hr'.
  split; [done|]. split; [done|]. split; [|split].
  - intros op. rewrite set_Operator_run.
    pose proof (proj1 (ready_spec _ _) Hr') as (q & -> & _). eauto.
  - intros p f v. destruct (add_ready p f v this _ Hr') as (h'' & Hrun & _).
    eauto.
  - intros condition. eexists _, _. split; [apply constructor_run|]. split.
    + unfold ready. cbn [currentQuery]. by rewrite lookup_alloc.
    + pose proof (client_well_formed _ _ (final (m h)) (client_new condition) Hwf')
        as Hwf''.
      by rewrite constructor_run in Hwf''.
Qed.
End staying_ready.

(** ** Further properties at concrete inputs *)

Section further_instances.
Import QueryBuilder.

Lemma operator_method_commutes_witness :
  (b ← set_Operator Operator.Xor sample_builder;
   add "a" Filter.Equal (JsNumber 1) b) sample_store
  = (b ← add "a" Filter.Equal (JsNumber 1) sample_builder;
     set_Operator Operator.Xor b) sample_store.
Proof.
  exact (operator_method_commutes_with_add Operator.Xor "a" Filter.Equal
           (JsNumber 1) sample_builder sample_store eq_refl).
Defined.

Lemma build_returns_live_node_witness :
  ∃ l h',
    (l ← build sample_builder;
     _ ← add "a" Filter.Equal (JsNumber 1) sample_builder; mret l) sample_store
    = Returns l h'
    ∧ l = 0
    ∧ children_of h' l = children_of sample_store l ++ [1]
    ∧ h' !! 1 = Some (ObjQuery (leaf "a" Filter.Equal (JsNumber 1))).
Proof.
  exact (build_returns_live_node "a" Filter.Equal (JsNumber 1)
           sample_builder sample_store eq_refl).
Defined.

Lemma group_of_chain_witness :
  ∃ h', group (run_calls sample_chain) (Some Operator.Or) sample_builder
          sample_store = Returns sample_builder h'
        ∧ children_of h' 0 = children_of sample_store 0 ++ [1]
        ∧ ∃ fuel0, ∀ fuel, fuel0 ≤ fuel →
            snapshot fuel h' 1
            = Some (QNode (Some Operator.Or) false None None None
                      (Some [leafTree "a" Filter.Equal (JsNumber 1);
                             QNode (Some Operator.Xor) false None None None
                               (Some [leafTree "b" Filter.In JsNull])])).
Proof.
  exact (group_of_chain sample_chain (Some Operator.Or) sample_builder
           sample_store eq_refl).
Defined.

Lemma builders_stay_ready_witness :
  well_formed (final (sample_session sample_store)) = true
  ∧ ready (final (sample_session sample_store)) sample_builder = true
  ∧ (∀ op, ∃ h'', set_Operator op sample_builder
                    (final (sample_session sample_store))
                  = Returns sample_builder h'')
  ∧ (∀ p f v, ∃ h'', add p f v sample_builder
                       (final (sample_session sample_store))
                     = Returns sample_builder h'')
  ∧ (∀ condition, ∃ qb h'',
       constructor condition (final (sample_session sample_store))
       = Returns qb h''
       ∧ ready h'' qb = true ∧ well_formed h'' = true).
Proof.
  exact (builders_stay_ready loc sample_session sample_builder sample_store
           client_sample_session eq_refl eq_refl).
Defined.
End further_instances.

(** ** Leaves and combinators *)

Section shapes.
Import QueryBuilder.

Lemma combinator_is_well_shaped t :
  combinator_shaped t = true → well_shaped t = true.
Proof.
  destruct t as [o n p f v [ts|]]; cbn.
  - intros [[-> ->]%andb_true_iff ->]%andb_true_iff. done.
  - intros [[-> ->]%andb_true_iff _]%andb_true_iff. cbn. apply orb_true_r.
Qed.

Lemma combinator_with_operator op t :
  combinator_shaped t = true → combinator_shaped (tree_with_operator op t) = true.
Proof. by destruct t. Qed.

Lemma combinator_with_child c t :
  well_shaped c = true → combinator_shaped t = true →
  combinator_shaped (tree_with_child c t) = true.
Proof.
  intros Hc. destruct t as [o n p f v [ts|]]; cbn.
  - intros [-> Hts]%andb_true_iff. cbn.
    rewrite forallb_app, Hts. cbn. by rewrite Hc.
  - intros [-> _]%andb_true_iff. cbn. by rewrite Hc.
Qed.

Lemma reading_keeps_combinator (c : call) :
  ∀ t, combinator_shaped t = true →
       combinator_shaped (fst (tree_after_call c t)) = true.
Proof.
  induction c as [| | |p f v|body condition IH|v] using call_nested_ind;
    intros t Ht; cbn [tree_after_call fst].
  - by apply combinator_with_operator.
  - by apply combinator_with_operator.
  - by apply combinator_with_operator.
  - by apply combinator_with_child.
  - assert (Hsub : ∀ s, combinator_shaped s = true →
                        combinator_shaped
                          (fst (thread (λ (c' : call) s', tree_after_call c' s')
                                  body s)) = true).
    { induction IH as [|c body Hc _ IHbody]; intros s Hs; [done|].
      cbn [thread]. specialize (Hc s Hs).
      destruct (tree_after_call c s) as [s1 [w|]]; cbn [fst] in *; [done|].
      by apply IHbody. }
    specialize (Hsub (fresh_tree condition) eq_refl).
    destruct (thread _ body (fresh_tree condition)) as [child [w|]];
      cbn [fst] in *; [done|].
    by apply combinator_with_child; [apply combinator_is_well_shaped|].
  - done.
Qed.

Lemma readings_keep_combinator (body : list call) t :
  combinator_shaped t = true →
  combinator_shaped (fst (tree_after_calls body t)) = true.
Proof.
  revert t. induction body as [|c body IH]; intros t Ht; [done|].
  unfold tree_after_calls. cbn [thread].
  pose proof (reading_keeps_combinator c t Ht) as Hc.
  destruct (tree_after_call c t) as [s1 [w|]]; cbn [fst] in *; [done|].
  by apply IH.
Qed.

(** X9: in the tree a chain of calls builds on a new builder, every node is
    either a condition leaf ([Property], [Filter] and [Value] present, no
    [Operator], no children) or a combinator (none of the three leaf keys),
    and every node has [Not] false: the builder never mixes the two shapes
    on one node. *)
Theorem chain_trees_are_well_shaped (body : list call)
    (condition : option Operator.t) (h : heap) :
  let t := fst (tree_after_calls body (fresh_tree condition)) in
  let h' := final ((qb ← constructor condition; run_calls body qb) h) in
  well_shaped t = true
  ∧ ∃ fuel0, ∀ fuel, fuel0 ≤ fuel → snapshot fuel h' (length h) = Some t.
Proof.
  cbn zeta. split.
  - by apply combinator_is_well_shaped, readings_keep_combinator.
  - destruct (chain_from_fresh body condition h)
      as (h' & Hend & Hrep & _ & _).
    rewrite bind_run, constructor_run.
    assert (final (run_calls body (mk (length h))
                     (h ++ [ObjQuery (initial condition)])) = h') as ->.
    { unfold ends_as in Hend.
      destruct (snd (tree_after_calls body (fresh_tree condition)));
        by rewrite Hend. }
    exact (represents_snapshot _ _ _ Hrep).
Qed.
End shapes.
